(** * Atom counting for chemical formulas

    A shallow embedding of [count_of_atoms] from
    [Random Questions/atomcount.py] and of its nested recursive-descent
    helper [parse], together with the properties the design document
    states about them.

    Modelling conventions.
    - A Python [str] is a list of characters.  The model covers the
      strings whose code points are below 256, which the type [ascii]
      enumerates; [isalpha], [islower] and [isdigit] follow Python's
      [str] methods on that range (so the letters and the superscript
      digits of Latin-1 are classified as Python classifies them).
      On that range a lowercase character is a letter; beyond it
      [str.islower] also holds of characters that are no letters, so
      where a statement needs a character not to be taken into a
      symbol by the scan behind a letter, it asks for [islower] to be
      false of it and does not derive that from [isalpha].
    - Python integers are unbounded: counts are in [N].
    - [defaultdict(int)] is a finite map [gmap string N]; reading a
      missing key gives 0.
    - Exceptions are results: [Raise e].  Only the exceptions the
      program text can provoke are listed in [exn]; the interpreter's
      resource limits (call-stack depth, the digit limit of [int]) are
      not part of the model.
    - Loops run on a budget ([fuel]); [OutOfFuel] is the budget running
      out, which the termination theorems show never happens with the
      budget [parse] hands out.

    The last part of the file embeds [max_square_area] and
    [max_rectangle_area] from [Random Questions/goodland.py]: a matrix
    is a list of rows of characters, indexing out of range is the
    result [IndexError], and the [while] loops run on a budget whose
    exhaustion, [Exhausted], is shown never to happen. *)

From Stdlib Require Import NArith Ascii String.
From stdpp Require Import gmap strings list fin_maps pretty sorting.

Local Open Scope N_scope.
Local Open Scope nat_scope.

(** ** Characters *)

Definition ord (c : ascii) : N := N_of_ascii c.

Definition between (lo hi n : N) : bool := ((lo <=? n) && (n <=? hi))%N.

(** [str.isalpha] on one character. *)
Definition isalpha (c : ascii) : bool :=
  let n := ord c in
  between 65 90 n || between 97 122 n
  || (n =? 170)%N || (n =? 181)%N || (n =? 186)%N
  || between 192 214 n || between 216 246 n || between 248 255 n.

(** [str.islower] on one character. *)
Definition islower (c : ascii) : bool :=
  let n := ord c in
  between 97 122 n
  || (n =? 170)%N || (n =? 181)%N || (n =? 186)%N
  || between 223 246 n || between 248 255 n.

(** [str.isdigit] on one character: the decimal digits and the
    superscripts two, three and one. *)
Definition isdigit (c : ascii) : bool :=
  let n := ord c in
  between 48 57 n || (n =? 178)%N || (n =? 179)%N || (n =? 185)%N.

(** The characters [int] accepts as decimal digits, with their value. *)
Definition decimal (c : ascii) : option N :=
  let n := ord c in
  if between 48 57 n then Some (n - 48)%N else None.

(** ** Results and exceptions *)

Inductive exn := ValueError | TypeError | AttributeError.

Inductive result (A : Type) :=
  | Return (a : A)
  | Raise (e : exn)
  | OutOfFuel.
Arguments Return {A} a.
Arguments Raise {A} e.
Arguments OutOfFuel {A}.

#[global] Instance result_ret : MRet result := @Return.
#[global] Instance result_bind : MBind result := λ A B f m,
  match m with
  | Return a => f a
  | Raise e => Raise e
  | OutOfFuel => OutOfFuel
  end.

(** What a call of [parse] hands back: the bare dictionary when the
    loop runs off the end of the string ([return counts]), a pair when
    it stops at a closing parenthesis ([return counts, i]). *)
Inductive retval :=
  | Dict (counts : gmap string N)
  | Tuple (counts : gmap string N) (i : nat).

(** ** String primitives *)

(** [s[a:b]] *)
Definition slice (s : list ascii) (a b : nat) : list ascii :=
  take (b - a) (drop a s).

Fixpoint int_digits (acc : N) (l : list ascii) : result N :=
  match l with
  | [] => Return acc
  | c :: l' =>
      match decimal c with
      | Some d => int_digits (10 * acc + d)%N l'
      | None => Raise ValueError
      end
  end.

(** [int(text)] for a text without sign, blanks or underscores. *)
Definition int (text : list ascii) : result N :=
  match text with
  | [] => Raise ValueError
  | _ => int_digits 0%N text
  end.

(** [while i + 1 < n and p(s[i + 1]): i += 1], returning the final [i]. *)
Fixpoint scan_fuel (p : ascii → bool) (s : list ascii) (fuel i : nat) : nat :=
  match fuel with
  | O => i
  | S fuel' =>
      match s !! (i + 1) with
      | Some c => if p c then scan_fuel p s fuel' (i + 1) else i
      | None => i
      end
  end.

Definition scan (p : ascii → bool) (s : list ascii) (i : nat) : nat :=
  scan_fuel p s (length s) i.

(** [int(s[num_start:i + 1]) if num_start <= i else 1] *)
Definition number (s : list ascii) (num_start i : nat) : result N :=
  if num_start <=? i then int (slice s num_start (i + 1)) else Return 1%N.

(** ** Dictionary primitives *)

(** [counts[atom] += count] on a [defaultdict(int)]. *)
Definition add_count (counts : gmap string N) (atom : string) (count : N)
  : gmap string N :=
  <[atom := (default 0 (counts !! atom) + count)%N]> counts.

(** [for atom, count in inner_counts.items():
       counts[atom] += count * multiplier] *)
Definition add_group (counts inner_counts : gmap string N) (multiplier : N)
  : gmap string N :=
  map_fold (λ atom count acc, add_count acc atom (count * multiplier)%N)
           counts inner_counts.

(** [inner_counts, j = v]: a pair unpacks; a dictionary is iterated
    over its keys, which fails with [ValueError] unless there are exactly
    two, and then [j] is a key and [j + 1] on the next line fails with
    [TypeError]. *)
Definition unpack (v : retval) : result (gmap string N * nat) :=
  match v with
  | Tuple inner_counts j => Return (inner_counts, j)
  | Dict d => if decide (size d = 2) then Raise TypeError else Raise ValueError
  end.

(** ** The parser *)

(** The state of the [while] loop after one pass through its body:
    either the loop goes on, with the dictionary and the cursor already
    moved by the closing [i += 1], or the function has returned. *)
Inductive flow :=
  | Continue (counts : gmap string N) (i : nat)
  | Stop (v : retval).

(** One pass through the body of [while i < n], at the character
    [c = s[i]]; [parse] is the function that the body calls on a
    parenthesised group. *)
Definition body (parse : nat → result retval) (s : list ascii)
    (counts : gmap string N) (i : nat) (c : ascii) : result flow :=
  if isalpha c then
    let start := i in
    let i := scan islower s i in
    let atom := string_of_list_ascii (slice s start (i + 1)) in
    let num_start := i + 1 in
    let i := scan isdigit s i in
    count ← number s num_start i;
    Return (Continue (add_count counts atom count) (i + 1))
  else if Ascii.eqb c "(" then
    v ← parse (i + 1);
    '(inner_counts, j) ← unpack v;
    let num_start := j + 1 in
    let j := scan isdigit s j in
    multiplier ← number s num_start j;
    Return (Continue (add_group counts inner_counts multiplier) (j + 1))
  else if Ascii.eqb c ")" then
    Return (Stop (Tuple counts i))
  else
    Return (Continue counts (i + 1)).

(** The [while i < n] loop of [parse], entered with the dictionary
    [counts] and the cursor [i]; [s !! i] is [None] exactly when
    [i < n] fails, and then [return counts] is reached. *)
Fixpoint parse_loop (fuel : nat) (s : list ascii) (counts : gmap string N)
    (i : nat) : result retval :=
  match fuel with
  | O => OutOfFuel
  | S fuel' =>
      match s !! i with
      | None => Return (Dict counts)
      | Some c =>
          r ← body (parse_loop fuel' s ∅) s counts i c;
          match r with
          | Continue counts' i' => parse_loop fuel' s counts' i'
          | Stop v => Return v
          end
      end
  end.

(** The loop on the budget that [parse] hands out: one unit per
    character and one more. *)
Definition parse_from (s : list ascii) (counts : gmap string N) (i : nat)
  : result retval :=
  parse_loop (S (length s)) s counts i.

(** [parse(s, i)]: a fresh dictionary and the loop. *)
Definition parse (s : list ascii) (i : nat) : result retval :=
  parse_from s ∅ i.

(** ** The characters the parser looks at

    The positions of [s] that the code reads, in the order it reads
    them: one for each evaluation of [s[i]] or [s[i + 1]] and one for
    each character a slice copies. *)

Fixpoint scan_reads (p : ascii → bool) (s : list ascii) (fuel i : nat)
  : list nat :=
  match fuel with
  | O => []
  | S fuel' =>
      match s !! (i + 1) with
      | Some c => (i + 1) :: (if p c then scan_reads p s fuel' (i + 1) else [])
      | None => []
      end
  end.

Definition slice_reads (s : list ascii) (a b : nat) : list nat :=
  seq a (length (slice s a b)).

Definition number_reads (s : list ascii) (num_start i : nat) : list nat :=
  if num_start <=? i then slice_reads s num_start (i + 1) else [].

(** The reads of one pass through the body: the tests of [s[i]] that
    are reached, the two scans and the two slices of an atom, or the
    reads of the call on a group followed by the scan and the slice of
    its multiplier. *)
Definition body_reads (parse : nat → result retval) (reads : nat → list nat)
    (s : list ascii) (i : nat) (c : ascii) : list nat :=
  if isalpha c then
    let start := i in
    let i1 := scan islower s start in
    let i2 := scan isdigit s i1 in
    [start] ++ scan_reads islower s (length s) start
    ++ slice_reads s start (i1 + 1)
    ++ scan_reads isdigit s (length s) i1
    ++ number_reads s (i1 + 1) i2
  else if Ascii.eqb c "(" then
    [i; i] ++ reads (i + 1) ++
    match parse (i + 1) ≫= unpack with
    | Return (_, j) =>
        scan_reads isdigit s (length s) j
        ++ number_reads s (j + 1) (scan isdigit s j)
    | _ => []
    end
  else [i; i; i].

Fixpoint parse_reads (fuel : nat) (s : list ascii) (counts : gmap string N)
    (i : nat) : list nat :=
  match fuel with
  | O => []
  | S fuel' =>
      match s !! i with
      | None => []
      | Some c =>
          body_reads (parse_loop fuel' s ∅) (parse_reads fuel' s ∅) s i c ++
          match body (parse_loop fuel' s ∅) s counts i c with
          | Return (Continue counts' i') => parse_reads fuel' s counts' i'
          | _ => []
          end
      end
  end.

(** How often position [k] occurs among the reads. *)
Definition times (k : nat) (reads : list nat) : nat :=
  length (filter (λ x, x = k) reads).

(** [sorted(result.items())]: items are ordered by key, keys by code
    points. *)
Definition item_le (x y : string * N) : Prop := String.leb x.1 y.1 = true.

#[global] Instance item_le_dec : RelDecision item_le :=
  λ x y, decide (String.leb x.1 y.1 = true).

Definition sorted_items (d : gmap string N) : list (string * N) :=
  merge_sort item_le (map_to_list d).

(** [f"{atom}: {count}"] *)
Definition line (item : string * N) : string :=
  (item.1 ++ ": " ++ pretty item.2)%string.

(** [count_of_atoms(formula)], run on the lines printed so far; it gives
    back Python's [None] (here [tt]) after printing one line per atom,
    or raises.  A pair returned by the outermost [parse] has no
    [items]. *)
Definition count_of_atoms (formula : string) (stdout : list string)
  : result unit * list string :=
  match parse (list_ascii_of_string formula) 0 with
  | Return (Dict result) => (Return tt, stdout ++ (line <$> sorted_items result))
  | Return (Tuple _ _) => (Raise AttributeError, stdout)
  | Raise e => (Raise e, stdout)
  | OutOfFuel => (OutOfFuel, stdout)
  end.

(** The dictionary the outermost [parse] builds for a formula. *)
Definition atom_counts (formula : string) : result retval :=
  parse (list_ascii_of_string formula) 0.

(** ** Parentheses, as the design document describes them *)

(** Where a left-to-right reading of [l], whose first character is at
    position [pos] and is [depth] groups deep, leaves the group it
    started in: at the end of the input with every group closed, at a
    closing parenthesis that has no opening one, or at the end of the
    input inside a group that was opened and never closed. *)
Inductive stop :=
  | AtEnd
  | AtClose (j : nat)
  | Unclosed.

Fixpoint level (depth : nat) (l : list ascii) (pos : nat) : stop :=
  match l with
  | [] => match depth with O => AtEnd | S _ => Unclosed end
  | c :: l' =>
      if Ascii.eqb c "(" then level (S depth) l' (S pos)
      else if Ascii.eqb c ")" then
        match depth with
        | O => AtClose pos
        | S depth' => level depth' l' (S pos)
        end
      else level depth l' (S pos)
  end.

(** Every character that [isdigit] accepts is one that [int] accepts. *)
Definition decimal_digits (s : list ascii) : bool :=
  forallb (λ c, implb (isdigit c) (bool_decide (is_Some (decimal c)))) s.

Definition paren (c : ascii) : bool := Ascii.eqb c "(" || Ascii.eqb c ")".

(** How a call of [parse] ends for each of the three readings: with the
    bare dictionary, with a pair at the closing parenthesis, or with
    the exception of the failed unpacking. *)
Definition stops_as (r : result retval) (st : stop) : Prop :=
  match st with
  | AtEnd => ∃ d, r = Return (Dict d)
  | AtClose j => ∃ d, r = Return (Tuple d j)
  | Unclosed => r = Raise ValueError ∨ r = Raise TypeError
  end.

(** ** The grammar of the design document

    [formula := term*], [term := element count? | '(' formula ')' count?],
    [element := UPPER lower*], [count := DIGIT+].  A formula is a
    sequence of terms; [count] is the text of the count, empty when
    there is none. *)

Definition upper (c : ascii) : bool := between 65 90 (ord c).
Definition lower (c : ascii) : bool := between 97 122 (ord c).
Definition digit (c : ascii) : bool := between 48 57 (ord c).

Inductive formula :=
  | Empty
  | Element (symbol count : list ascii) (rest : formula)
  | Group (inner : formula) (count : list ascii) (rest : formula).

Definition element (symbol : list ascii) : bool :=
  match symbol with
  | [] => false
  | c :: l => upper c && forallb lower l
  end.

Fixpoint valid (f : formula) : bool :=
  match f with
  | Empty => true
  | Element symbol count rest =>
      element symbol && forallb digit count && valid rest
  | Group inner count rest =>
      valid inner && forallb digit count && valid rest
  end.

(** The formula as it is written. *)
Fixpoint text (f : formula) : list ascii :=
  match f with
  | Empty => []
  | Element symbol count rest => symbol ++ count ++ text rest
  | Group inner count rest =>
      "("%char :: text inner ++ ")"%char :: count ++ text rest
  end.

(** ** Counting by full expansion

    The reference the design document compares the parser with: every
    counted element and every group is written out as many times as its
    multiplier says (once when there is none), and the atoms of the
    expanded formula are counted. *)

Definition multiplier_of (count : list ascii) : N :=
  match count with
  | [] => 1%N
  | _ => fold_left (λ acc c, (10 * acc + (ord c - 48))%N) count 0%N
  end.

Fixpoint expand (f : formula) : list string :=
  match f with
  | Empty => []
  | Element symbol count rest =>
      replicate (N.to_nat (multiplier_of count)) (string_of_list_ascii symbol)
      ++ expand rest
  | Group inner count rest =>
      mjoin (replicate (N.to_nat (multiplier_of count)) (expand inner))
      ++ expand rest
  end.

Definition occurrences (atom : string) (atoms : list string) : N :=
  N.of_nat (length (filter (λ a, a = atom) atoms)).

(** [counts[atom]], read from a [defaultdict(int)]. *)
Definition quantity (counts : gmap string N) (atom : string) : N :=
  default 0%N (counts !! atom).

(** The dictionary the loop holds after it has read the formula [f],
    entered with [counts]. *)
Fixpoint tally (f : formula) (counts : gmap string N) : gmap string N :=
  match f with
  | Empty => counts
  | Element symbol count rest =>
      tally rest
        (add_count counts (string_of_list_ascii symbol) (multiplier_of count))
  | Group inner count rest =>
      tally rest (add_group counts (tally inner ∅) (multiplier_of count))
  end.

(** No count in the formula is zero. *)
Fixpoint nonzero (f : formula) : bool :=
  match f with
  | Empty => true
  | Element _ count rest => negb (multiplier_of count =? 0)%N && nonzero rest
  | Group inner count rest =>
      nonzero inner && negb (multiplier_of count =? 0)%N && nonzero rest
  end.

(** The formula K4(ON(SO3)2)2 of the design document. *)
Definition K4_ON_SO3_2_2 : formula :=
  Element ["K"%char] ["4"%char]
    (Group
       (Element ["O"%char] []
          (Element ["N"%char] []
             (Group (Element ["S"%char] [] (Element ["O"%char] ["3"%char] Empty))
                    ["2"%char] Empty)))
       ["2"%char] Empty).

(** The characters the loop passes over: those that are neither
    letters nor parentheses. *)
Definition passed_over (c : ascii) : bool := negb (isalpha c) && negb (paren c).

(** How often the loop entered at [i] may read position [k]: never
    before [i], three times at [i], five times behind it. *)
Definition allowance (i k : nat) : nat :=
  if bool_decide (k < i) then 0 else if bool_decide (k = i) then 3 else 5.

(** What may follow a formula: nothing, or the parenthesis that closes
    the group it is written in. *)
Definition closing (post : list ascii) : Prop :=
  match post with
  | [] => True
  | c :: _ => c = ")"%char
  end.

(** ** Results mapped, moved and added up *)

(** [f] applied to what is returned; exceptions pass. *)
Definition result_map {A B} (f : A → B) (r : result A) : result B :=
  match r with
  | Return a => Return (f a)
  | Raise e => Raise e
  | OutOfFuel => OutOfFuel
  end.

(** The returned cursor moved by [k] positions. *)
Definition shift (k : nat) (v : retval) : retval :=
  match v with
  | Dict d => Dict d
  | Tuple d j => Tuple d (k + j)
  end.

Definition flow_shift (k : nat) (r : flow) : flow :=
  match r with
  | Continue counts i => Continue counts (k + i)
  | Stop v => Stop (shift k v)
  end.

(** Two dictionaries of counts added up key by key. *)
Definition merge_counts (c d : gmap string N) : gmap string N :=
  union_with (λ x y, Some (x + y)%N) c d.

Definition merge_into (c : gmap string N) (v : retval) : retval :=
  match v with
  | Dict d => Dict (merge_counts c d)
  | Tuple d j => Tuple (merge_counts c d) j
  end.

Definition flow_merge (c : gmap string N) (r : flow) : flow :=
  match r with
  | Continue counts i => Continue (merge_counts c counts) i
  | Stop v => Stop (merge_into c v)
  end.

(** A text that does not continue a symbol or a count written before
    it: it does not begin with a lowercase letter or a digit. *)
Definition boundary (s : list ascii) : bool :=
  match s with
  | [] => true
  | c :: _ => negb (islower c) && negb (isdigit c)
  end.

(** [int(digits) if digits else 1]: the count written in [digits]. *)
Definition count_of (digits : list ascii) : result N :=
  match digits with
  | [] => Return 1%N
  | _ => int digits
  end.

(** Strictly before, in the order of code points. *)
Definition item_lt (x y : string * N) : Prop := String.ltb x.1 y.1 = true.

(** A letter followed by lowercase letters. *)
Definition symbol_shaped (atom : string) : bool :=
  match list_ascii_of_string atom with
  | [] => false
  | c :: l => isalpha c && forallb islower l
  end.

(** The dictionary in what [parse] returns. *)
Definition dict (v : retval) : gmap string N :=
  match v with
  | Dict d => d
  | Tuple d _ => d
  end.

Fixpoint symbols (f : formula) : gset string :=
  match f with
  | Empty => ∅
  | Element symbol _ rest => {[ string_of_list_ascii symbol ]} ∪ symbols rest
  | Group inner _ rest => symbols inner ∪ symbols rest
  end.

(** ** Good land: squares and rectangles of ['1'] in a matrix *)

Inductive outcome (A : Type) :=
  | Done (a : A)
  | IndexError
  | Exhausted.

Arguments Done {A} a.

Arguments IndexError {A}.

Arguments Exhausted {A}.

#[global] Instance outcome_ret : MRet outcome := @Done.

#[global] Instance outcome_bind : MBind outcome := λ A B f m,
  match m with
  | Done a => f a
  | IndexError => IndexError
  | Exhausted => Exhausted
  end.

(** [matrix[x][y]] *)
Definition cell (matrix : list (list ascii)) (x y : nat) : outcome ascii :=
  match matrix !! x with
  | None => IndexError
  | Some row =>
      match row !! y with
      | None => IndexError
      | Some c => Done c
      end
  end.

(** [for x in l: st = body(st, x)], an exception ending the loop. *)
Fixpoint for_each {State : Type} (body : State → nat → outcome State)
    (l : list nat) (st : State) : outcome State :=
  match l with
  | [] => Done st
  | x :: l' => st' ← body st x; for_each body l' st'
  end.

(** [len(matrix[0]) if rows > 0 else 0] *)
Definition columns (matrix : list (list ascii)) : nat :=
  match matrix with
  | [] => 0
  | row :: _ => length row
  end.

(** The inner [for y in range(j, j + current_side + 1)] of the check:
    [false] when a ['0'] is met, at which the loop breaks. *)
Fixpoint scan_row (matrix : list (list ascii)) (x : nat) (ys : list nat)
  : outcome bool :=
  match ys with
  | [] => Done true
  | y :: ys' =>
      c ← cell matrix x y;
      if Ascii.eqb c "0" then Done false else scan_row matrix x ys'
  end.

(** The outer [for x in range(i, i + current_side + 1)] of the check,
    which breaks as soon as [is_square] is false. *)
Fixpoint scan_block (matrix : list (list ascii)) (xs ys : list nat)
  : outcome bool :=
  match xs with
  | [] => Done true
  | x :: xs' =>
      scan_row matrix x ys ≫= λ is_square : bool,
      if is_square then scan_block matrix xs' ys else Done false
  end.

(** [while i + current_side < rows and j + current_side < cols: ...] *)
Fixpoint grow_square (fuel : nat) (matrix : list (list ascii))
    (rows cols i j current_side : nat) : outcome nat :=
  match fuel with
  | O => Exhausted
  | S fuel' =>
      if (i + current_side <? rows) && (j + current_side <? cols) then
        scan_block matrix (seq i (current_side + 1))
                          (seq j (current_side + 1)) ≫= λ is_square : bool,
        if is_square
        then grow_square fuel' matrix rows cols i j (current_side + 1)
        else Done current_side
      else Done current_side
  end.

(** The body of [for j in range(cols)] in [max_square_area], in row
    [i]: a square is grown from a cell that holds ['1']. *)
Definition square_from (matrix : list (list ascii)) (i max_side j : nat)
  : outcome nat :=
  c ← cell matrix i j;
  if Ascii.eqb c "1" then
    current_side ←
      grow_square (S (length matrix)) matrix (length matrix) (columns matrix)
                  i j 1;
    Done (max_side `max` current_side)
  else Done max_side.

Definition max_square_area (matrix : list (list ascii)) : outcome nat :=
  let rows := length matrix in
  let cols := columns matrix in
  max_side ←
    for_each (λ max_side i, for_each (square_from matrix i) (seq 0 cols) max_side)
             (seq 0 rows) 0;
  Done (max_side * max_side).

(** [while j + width < cols and matrix[i][j + width] == '1': width += 1] *)
Fixpoint run_right (fuel : nat) (matrix : list (list ascii))
    (cols i j width : nat) : outcome nat :=
  match fuel with
  | O => Exhausted
  | S fuel' =>
      if j + width <? cols then
        c ← cell matrix i (j + width);
        if Ascii.eqb c "1" then run_right fuel' matrix cols i j (width + 1)
        else Done width
      else Done width
  end.

(** [while i + current_height < rows and
          matrix[i + current_height][j + k] == '1': current_height += 1] *)
Fixpoint run_down (fuel : nat) (matrix : list (list ascii))
    (rows i y current_height : nat) : outcome nat :=
  match fuel with
  | O => Exhausted
  | S fuel' =>
      if i + current_height <? rows then
        c ← cell matrix (i + current_height) y;
        if Ascii.eqb c "1"
        then run_down fuel' matrix rows i y (current_height + 1)
        else Done current_height
      else Done current_height
  end.

(** The body of [for k in range(width)]: the run of ['1'] below the
    cell in row [i] and column [j + k]. *)
Definition column_below (matrix : list (list ascii)) (i j height k : nat)
  : outcome nat :=
  current_height ← run_down (S (length matrix)) matrix (length matrix) i (j + k) 0;
  Done (height `max` current_height).

(** The body of [for j in range(cols)] in [max_rectangle_area]. *)
Definition rectangle_from (matrix : list (list ascii)) (i max_area j : nat)
  : outcome nat :=
  c ← cell matrix i j;
  if Ascii.eqb c "1" then
    width ← run_right (S (columns matrix)) matrix (columns matrix) i j 0;
    height ← for_each (column_below matrix i j) (seq 0 width) 0;
    Done (max_area `max` (width * height))
  else Done max_area.

Definition max_rectangle_area (matrix : list (list ascii)) : outcome nat :=
  let rows := length matrix in
  let cols := columns matrix in
  for_each (λ max_area i,
              for_each (rectangle_from matrix i) (seq 0 cols) max_area)
           (seq 0 rows) 0.

(** Every row is at least as long as the first one. *)
Definition wide_enough (matrix : list (list ascii)) : Prop :=
  Forall (λ row, columns matrix ≤ length row) matrix.

(** No cell of the square of side [n] with upper left corner [(i, j)]
    holds ['0']. *)
Definition zero_free (matrix : list (list ascii)) (i j n : nat) : Prop :=
  ∀ x y, i ≤ x < i + n → j ≤ y < j + n → cell matrix x y ≠ Done "0"%char.

(** A square the function accepts: inside the matrix, with ['1'] in its
    upper left corner and ['0'] nowhere. *)
Definition good_square (matrix : list (list ascii)) (i j n : nat) : Prop :=
  0 < n ∧ i + n ≤ length matrix ∧ j + n ≤ columns matrix ∧
  cell matrix i j = Done "1"%char ∧ zero_free matrix i j n.

(** What the loops keep: the side held is 0 or the side of an accepted
    square, and no accepted square with its corner among the cells
    [seen] is larger. *)
Definition largest_so_far (matrix : list (list ascii))
    (seen : nat → nat → Prop) (side : nat) : Prop :=
  (side = 0 ∨ ∃ i j, good_square matrix i j side) ∧
  (∀ i j n, seen i j → good_square matrix i j n → n ≤ side).

(** [w] cells holding ['1'] to the right from [(i, j)], and [h] cells
    holding ['1'] downwards from [(i, y)]. *)
Definition ones_right (matrix : list (list ascii)) (i j w : nat) : Prop :=
  ∀ y, j ≤ y < j + w → cell matrix i y = Done "1"%char.

Definition ones_down (matrix : list (list ascii)) (i y h : nat) : Prop :=
  ∀ x, i ≤ x < i + h → cell matrix x y = Done "1"%char.

(** A run of [w] cells holding ['1'] to the right from [(i, j)], inside
    the columns of the matrix, with a run of [h] cells holding ['1']
    downwards from its cell number [k]. *)
Definition hanging (matrix : list (list ascii)) (i j w k h : nat) : Prop :=
  0 < w ∧ j + w ≤ columns matrix ∧ ones_right matrix i j w ∧
  k < w ∧ ones_down matrix i (j + k) h.

#[global] Instance wide_enough_dec matrix : Decision (wide_enough matrix).
Proof. unfold wide_enough. apply _. Defined.

(** All rows have the length of the first, and all cells hold ['0'] or
    ['1']. *)
Definition binary (matrix : list (list ascii)) : Prop :=
  Forall (λ row, length row = columns matrix ∧
                 Forall (λ c, c = "0"%char ∨ c = "1"%char) row) matrix.

(** A square of side [n] whose cells all hold ['1']. *)
Definition ones_square (matrix : list (list ascii)) (i j n : nat) : Prop :=
  ∀ x y, i ≤ x < i + n → j ≤ y < j + n → cell matrix x y = Done "1"%char.

Definition land : list (list ascii) :=
  list_ascii_of_string
    <$> ["01101"; "11010"; "01110"; "11110"; "01111"; "00000"]%string.

#[global] Instance binary_dec matrix : Decision (binary matrix).
Proof. unfold binary. apply _. Defined.

(** A rectangle of [w] columns and [h] rows with upper left corner
    [(i, j)] whose cells all hold ['1']. *)
Definition ones_rectangle (matrix : list (list ascii)) (i j w h : nat) : Prop :=
  ∀ x y, i ≤ x < i + h → j ≤ y < j + w → cell matrix x y = Done "1"%char.

(** * Properties *)

(** ** The monad *)

Lemma bind_Return {A B} (m : result A) (f : A → result B) b :
  m ≫= f = Return b → ∃ a, m = Return a ∧ f a = Return b.
Proof. destruct m; simpl; intros; eauto; discriminate. Qed.

Lemma bind_not_OutOfFuel {A B} (m : result A) (f : A → result B) :
  m ≠ OutOfFuel → (∀ a, m = Return a → f a ≠ OutOfFuel) → m ≫= f ≠ OutOfFuel.
Proof. destruct m; simpl; intros; eauto; discriminate. Qed.

(** ** The scanning loops *)

Section scanning.
Context (p : ascii → bool) (s : list ascii).

Lemma scan_fuel_le fuel i : i ≤ scan_fuel p s fuel i.
Proof.
  revert i; induction fuel as [|fuel IH]; intros i; simpl; [lia|].
  destruct (s !! (i + 1)) as [c|]; [|lia].
  destruct (p c); [|lia]. specialize (IH (i + 1)). lia.
Qed.

Lemma scan_fuel_inside fuel i k :
  i < k ≤ scan_fuel p s fuel i → ∃ c, s !! k = Some c ∧ p c = true.
Proof.
  revert i; induction fuel as [|fuel IH]; intros i; simpl; [lia|].
  destruct (s !! (i + 1)) as [c|] eqn:Hc; [|lia].
  destruct (p c) eqn:Hp; [|lia].
  intros Hk. destruct (decide (k = i + 1)) as [->|]; [eauto|].
  apply (IH (i + 1)). lia.
Qed.

Lemma scan_fuel_exit fuel i :
  length s ≤ fuel + (i + 1) →
  ∀ c, s !! (scan_fuel p s fuel i + 1) = Some c → p c = false.
Proof.
  revert i; induction fuel as [|fuel IH]; intros i Hlen c; simpl.
  - intros Hc. apply lookup_lt_Some in Hc. lia.
  - destruct (s !! (i + 1)) as [d|] eqn:Hd; [|congruence].
    destruct (p d) eqn:Hp; [|congruence].
    apply IH. lia.
Qed.

Lemma scan_le i : i ≤ scan p s i.
Proof. apply scan_fuel_le. Qed.

Lemma scan_inside i k :
  i < k ≤ scan p s i → ∃ c, s !! k = Some c ∧ p c = true.
Proof. apply scan_fuel_inside. Qed.

Lemma scan_exit i c : s !! (scan p s i + 1) = Some c → p c = false.
Proof. apply scan_fuel_exit. lia. Qed.

End scanning.

(** ** Cursors *)

(** What one pass through the body does to the cursor, given that the
    calls it makes return cursors at or after their start. *)
Lemma body_cursor parse s counts i c r :
  (∀ d j, parse (i + 1) = Return (Tuple d j) → i + 1 ≤ j) →
  body parse s counts i c = Return r →
  match r with
  | Continue _ i' => i < i'
  | Stop v => v = Tuple counts i ∧ c = ")"%char
  end.
Proof.
  intros Hparse. unfold body.
  destruct (isalpha c).
  { intros (count & _ & [= <-])%bind_Return.
    pose proof (scan_le islower s i).
    pose proof (scan_le isdigit s (scan islower s i)). lia. }
  destruct (Ascii.eqb_spec c "(").
  { intros (v & Hv & ([inner j] & Hu & (m & _ & [= <-])%bind_Return)%bind_Return)%bind_Return.
    destruct v as [d|d j']; simpl in Hu; [by case_decide|].
    injection Hu as -> ->. apply Hparse in Hv.
    pose proof (scan_le isdigit s j). lia. }
  destruct (Ascii.eqb_spec c ")"); intros [= <-]; [done|lia].
Qed.

(** A pair is only ever returned at a closing parenthesis, at or after
    the cursor the loop was entered with. *)
Lemma parse_loop_tuple fuel s counts i d j :
  parse_loop fuel s counts i = Return (Tuple d j) →
  i ≤ j ∧ s !! j = Some ")"%char.
Proof.
  revert counts i d j; induction fuel as [|fuel IH]; intros counts i d j; simpl; [done|].
  destruct (s !! i) as [c|] eqn:Hc; [|done].
  intros (r & Hr & Hk)%bind_Return.
  apply body_cursor in Hr; [|intros ?? H%IH; lia].
  destruct r as [counts' i'|v].
  - apply IH in Hk as [? ?]. split; [lia|done].
  - destruct Hr as [-> ->]. injection Hk as -> ->. done.
Qed.

(** ** The budget *)

Lemma body_ext parse1 parse2 s counts i c :
  parse1 (i + 1) = parse2 (i + 1) →
  body parse1 s counts i c = body parse2 s counts i c.
Proof. unfold body. by intros ->. Qed.

(** Any two budgets above the number of characters left give the same
    result. *)
Lemma parse_loop_fuel fuel1 fuel2 s counts i :
  length s - i < fuel1 → length s - i < fuel2 →
  parse_loop fuel1 s counts i = parse_loop fuel2 s counts i.
Proof.
  revert fuel2 counts i.
  induction fuel1 as [|fuel1 IH]; intros [|fuel2] counts i H1 H2; try lia.
  simpl. destruct (s !! i) as [c|] eqn:Hc; [|done].
  apply lookup_lt_Some in Hc.
  rewrite (body_ext _ (parse_loop fuel2 s ∅)) by (apply IH; lia).
  destruct (body _ s counts i c) as [[counts' i'|v]| |] eqn:Hr; simpl; try done.
  apply body_cursor in Hr; [|intros ?? H%parse_loop_tuple; lia].
  apply IH; lia.
Qed.

Lemma int_digits_fuel acc l : int_digits acc l ≠ OutOfFuel.
Proof.
  revert acc; induction l as [|c l IH]; intros acc; simpl; [done|].
  destruct (decimal c); [apply IH|done].
Qed.

Lemma number_fuel s a b : number s a b ≠ OutOfFuel.
Proof.
  unfold number, int. destruct (a <=? b); [|done].
  destruct (slice s a (b + 1)); [done|apply int_digits_fuel].
Qed.

Lemma unpack_fuel v : unpack v ≠ OutOfFuel.
Proof. destruct v; simpl; [by case_decide|done]. Qed.

Lemma body_fuel parse s counts i c :
  parse (i + 1) ≠ OutOfFuel → body parse s counts i c ≠ OutOfFuel.
Proof.
  intros Hparse. unfold body.
  destruct (isalpha c).
  { apply bind_not_OutOfFuel; [apply number_fuel|done]. }
  destruct (Ascii.eqb c "(").
  { apply bind_not_OutOfFuel; [done|]. intros v _.
    apply bind_not_OutOfFuel; [apply unpack_fuel|]. intros [inner j] _.
    apply bind_not_OutOfFuel; [apply number_fuel|done]. }
  by destruct (Ascii.eqb c ")").
Qed.

(** A budget above the number of characters left never runs out. *)
Lemma parse_loop_terminates fuel s counts i :
  length s - i < fuel → parse_loop fuel s counts i ≠ OutOfFuel.
Proof.
  revert counts i; induction fuel as [|fuel IH]; intros counts i Hfuel; [lia|].
  simpl. destruct (s !! i) as [c|] eqn:Hc; [|done].
  apply lookup_lt_Some in Hc.
  apply bind_not_OutOfFuel; [apply body_fuel, IH; lia|].
  intros [counts' i'|v] Hr; [|done].
  apply body_cursor in Hr; [|intros ?? H%parse_loop_tuple; lia].
  apply IH; lia.
Qed.

(** The loop equation of [parse_from]: the budget has disappeared. *)
Lemma parse_from_unfold s counts i :
  parse_from s counts i =
  match s !! i with
  | None => Return (Dict counts)
  | Some c =>
      r ← body (parse s) s counts i c;
      match r with
      | Continue counts' i' => parse_from s counts' i'
      | Stop v => Return v
      end
  end.
Proof.
  unfold parse, parse_from at 1. simpl.
  destruct (s !! i) as [c|] eqn:Hc; [|done].
  apply lookup_lt_Some in Hc.
  rewrite (body_ext _ (parse_from s ∅)) by (apply parse_loop_fuel; lia).
  destruct (body _ s counts i c) as [[counts' i'|v]| |] eqn:Hr; simpl; try done.
  apply body_cursor in Hr; [|intros ?? H%parse_loop_tuple; lia].
  apply parse_loop_fuel; lia.
Qed.

Lemma parse_from_tuple s counts i d j :
  parse_from s counts i = Return (Tuple d j) → i ≤ j ∧ s !! j = Some ")"%char.
Proof. apply parse_loop_tuple. Qed.

Lemma parse_from_terminates s counts i : parse_from s counts i ≠ OutOfFuel.
Proof. apply parse_loop_terminates. lia. Qed.

(** ** Characters and parentheses *)

Lemma isalpha_paren c : isalpha c = true → paren c = false.
Proof. by destruct c as [[] [] [] [] [] [] [] []]. Qed.

Lemma islower_paren c : islower c = true → paren c = false.
Proof. by destruct c as [[] [] [] [] [] [] [] []]. Qed.

Lemma isdigit_paren c : isdigit c = true → paren c = false.
Proof. by destruct c as [[] [] [] [] [] [] [] []]. Qed.

Lemma paren_false c :
  paren c = false → Ascii.eqb c "(" = false ∧ Ascii.eqb c ")" = false.
Proof. unfold paren. by destruct (Ascii.eqb c "("), (Ascii.eqb c ")"). Qed.

Lemma level_other depth c l pos :
  paren c = false → level depth (c :: l) pos = level depth l (S pos).
Proof. intros [H1 H2]%paren_false. simpl. by rewrite H1, H2. Qed.

Lemma level_close_ge l : ∀ depth pos j,
  level depth l pos = AtClose j → pos ≤ j.
Proof.
  induction l as [|c l IH]; intros depth pos j; simpl.
  { by destruct depth. }
  destruct (Ascii.eqb c "("); [intros ?%IH; lia|].
  destruct (Ascii.eqb c ")").
  - destruct depth; [intros [= <-]; lia|intros ?%IH; lia].
  - intros ?%IH; lia.
Qed.

(** Reading on inside [S depth] enclosing groups is reading the
    innermost one to its closing parenthesis and going on behind it. *)
Lemma level_split l : ∀ inner depth pos,
  level (inner + S depth) l pos =
  match level inner l pos with
  | AtClose j => level depth (drop (S j - pos) l) (S j)
  | AtEnd | Unclosed => Unclosed
  end.
Proof.
  induction l as [|c l IH]; intros inner depth pos; simpl.
  { replace (inner + S depth) with (S (inner + depth)) by lia. by destruct inner. }
  destruct (Ascii.eqb c "(").
  { change (S (inner + S depth)) with (S inner + S depth).
    rewrite (IH (S inner)).
    destruct (level (S inner) l (S pos)) as [|j|] eqn:Hl; try done.
    apply level_close_ge in Hl.
    by replace (S j - pos) with (S (S j - S pos)) by lia. }
  destruct (Ascii.eqb c ")").
  - destruct inner as [|inner]; simpl.
    + by replace (S pos - pos) with 1 by lia.
    + rewrite IH.
      destruct (level inner l (S pos)) as [|j|] eqn:Hl; try done.
      apply level_close_ge in Hl.
      by replace (S j - pos) with (S (S j - S pos)) by lia.
  - rewrite IH.
    destruct (level inner l (S pos)) as [|j|] eqn:Hl; try done.
    apply level_close_ge in Hl.
    by replace (S j - pos) with (S (S j - S pos)) by lia.
Qed.

(** Characters that are not parentheses do not change the reading. *)
Lemma level_drop_skip s depth i i' :
  i ≤ i' →
  (∀ k c, i ≤ k < i' → s !! k = Some c → paren c = false) →
  level depth (drop i s) i = level depth (drop i' s) i'.
Proof.
  intros Hle. remember (i' - i) as n eqn:Hn.
  revert i Hle Hn; induction n as [|n IH]; intros i Hle Hn Hskip.
  { by replace i' with i by lia. }
  destruct (s !! i) as [c|] eqn:Hc.
  - rewrite (drop_S _ _ _ Hc), level_other by (apply (Hskip i); [lia|done]).
    apply IH; [lia..|]. intros k d ?. apply Hskip. lia.
  - apply lookup_ge_None in Hc. by rewrite !drop_ge by lia.
Qed.

(** The reading of an opened group, on positions of the string. *)
Lemma level_open s i :
  level 1 (drop (S i) s) (S i) =
  match level 0 (drop (S i) s) (S i) with
  | AtClose j => level 0 (drop (S j) s) (S j)
  | AtEnd | Unclosed => Unclosed
  end.
Proof.
  rewrite (level_split _ 0 0).
  destruct (level 0 (drop (S i) s) (S i)) as [|j|] eqn:Hl; try done.
  apply level_close_ge in Hl.
  rewrite drop_drop. by replace (S i + (S j - S i)) with (S j) by lia.
Qed.

(** ** Numbers *)

Lemma slice_lookup s a b m c :
  slice s a b !! m = Some c → s !! (a + m) = Some c ∧ a + m < b.
Proof.
  unfold slice. intros [H ?]%lookup_take_Some.
  rewrite lookup_drop in H. split; [done|lia].
Qed.

Lemma int_digits_cases l : ∀ acc,
  (∃ n, int_digits acc l = Return n) ∨
  (int_digits acc l = Raise ValueError ∧ ∃ c, c ∈ l ∧ decimal c = None).
Proof.
  induction l as [|c l IH]; intros acc; simpl; [eauto|].
  destruct (decimal c) as [d|] eqn:Hd.
  - destruct (IH (10 * acc + d)%N) as [?|(? & c' & ? & ?)]; [by left|].
    right. split; [done|]. exists c'. by rewrite elem_of_cons; auto.
  - right. split; [done|]. exists c. by rewrite elem_of_cons; auto.
Qed.

Lemma decimal_digits_false s c :
  c ∈ s → isdigit c = true → decimal c = None → decimal_digits s = false.
Proof.
  intros Hc Hd Hn. unfold decimal_digits.
  apply not_true_is_false. rewrite forallb_forall.
  intros H. specialize (H c). rewrite <-list_elem_of_In in H.
  specialize (H Hc). by rewrite Hd, Hn in H.
Qed.

(** The number read behind an atom or a group is a number unless one of
    the digits scanned is not a decimal one. *)
Lemma number_scan s i :
  (∃ n, number s (i + 1) (scan isdigit s i) = Return n) ∨
  (number s (i + 1) (scan isdigit s i) = Raise ValueError ∧
   decimal_digits s = false).
Proof.
  unfold number. destruct (Nat.leb_spec (i + 1) (scan isdigit s i)); [|eauto].
  destruct (scan_inside isdigit s i (i + 1)) as (c0 & Hc0 & _); [lia|].
  unfold int.
  destruct (slice s (i + 1) (scan isdigit s i + 1)) as [|c l] eqn:Hs.
  { apply (f_equal length) in Hs. unfold slice in Hs.
    rewrite length_take, length_drop in Hs. apply lookup_lt_Some in Hc0.
    simpl in Hs. lia. }
  destruct (int_digits_cases (c :: l) 0%N) as [?|(Hr & d & [m Hm]%list_elem_of_lookup & Hd)];
    [by left|].
  right. split; [done|].
  rewrite <-Hs in Hm. apply slice_lookup in Hm as [Hm ?].
  destruct (scan_inside isdigit s i (i + 1 + m)) as (d' & Hd' & Hp); [lia|].
  assert (d' = d) as -> by congruence.
  eapply decimal_digits_false; [|done..].
  apply list_elem_of_lookup. eauto.
Qed.

(** ** Where a call of [parse] stops *)

(** The loop stops as the reading of the parentheses says, unless a
    digit that [int] refuses stops it first. *)
Lemma parse_from_level s : ∀ counts i,
  stops_as (parse_from s counts i) (level 0 (drop i s) i) ∨
  (parse_from s counts i = Raise ValueError ∧ decimal_digits s = false).
Proof.
  intros counts i. remember (length s - i) as n eqn:Hn.
  revert counts i Hn.
  induction n as [n IH] using lt_wf_ind; intros counts i ->.
  rewrite parse_from_unfold.
  destruct (s !! i) as [c|] eqn:Hc.
  2:{ apply lookup_ge_None in Hc. rewrite drop_ge by done. left. simpl. eauto. }
  pose proof (lookup_lt_Some _ _ _ Hc) as Hi.
  rewrite (drop_S _ _ _ Hc). unfold body.
  destruct (isalpha c) eqn:Ha.
  { rewrite level_other by by apply isalpha_paren.
    set (i1 := scan islower s i). set (i2 := scan isdigit s i1).
    pose proof (scan_le islower s i). pose proof (scan_le isdigit s i1).
    destruct (number_scan s i1) as [[m Hm]|[Hm Hd]]; fold i2 in Hm;
      rewrite Hm; simpl; [|by right].
    rewrite (level_drop_skip s 0 (S i) (i2 + 1)); [|lia|].
    - apply (IH (length s - (i2 + 1))); [lia|done].
    - intros k d Hk Hd. destruct (decide (k ≤ i1)).
      + destruct (scan_inside islower s i k) as (d' & ? & ?); [lia|].
        apply islower_paren. congruence.
      + destruct (scan_inside isdigit s i1 k) as (d' & ? & ?); [fold i2; lia|].
        apply isdigit_paren. congruence. }
  destruct (Ascii.eqb_spec c "(") as [->|Hopen].
  { simpl level. rewrite level_open.
    unfold parse. replace (i + 1) with (S i) by lia.
    destruct (IH (length s - S i) ltac:(lia) ∅ (S i) eq_refl) as [Hin|[Hin Hd]].
    2:{ rewrite Hin. by right. }
    destruct (level 0 (drop (S i) s) (S i)) as [|j|] eqn:Hl; simpl in Hin.
    - destruct Hin as [d ->]. left. simpl. case_decide; simpl; auto.
    - destruct Hin as [d Hin]. rewrite Hin. simpl.
      apply level_close_ge in Hl.
      set (j2 := scan isdigit s j). pose proof (scan_le isdigit s j).
      destruct (number_scan s j) as [[m Hm]|[Hm Hd]]; fold j2 in Hm;
        rewrite Hm; simpl; [|by right].
      rewrite (level_drop_skip s 0 (S j) (j2 + 1)); [|lia|].
      + apply (IH (length s - (j2 + 1))); [lia|done].
      + intros k d' Hk Hd'.
        destruct (scan_inside isdigit s j k) as (d'' & ? & ?); [fold j2; lia|].
        apply isdigit_paren. congruence.
    - left. destruct Hin as [-> | ->]; simpl; auto. }
  destruct (Ascii.eqb_spec c ")") as [->|Hclose]; simpl.
  { left. eauto. }
  rewrite (proj2 (Ascii.eqb_neq _ _)), (proj2 (Ascii.eqb_neq _ _)) by done.
  replace (i + 1) with (S i) by lia.
  apply (IH (length s - S i)); [lia|done].
Qed.

(** ** Dictionaries *)

Lemma quantity_add_count counts atom n a :
  quantity (add_count counts atom n) a =
  (quantity counts a + if decide (a = atom) then n else 0)%N.
Proof.
  unfold quantity, add_count. case_decide as Ha.
  - subst. by rewrite lookup_insert_eq.
  - rewrite lookup_insert_ne by done. simpl. lia.
Qed.

Lemma quantity_add_group counts inner m a :
  quantity (add_group counts inner m) a =
  (quantity counts a + quantity inner a * m)%N.
Proof.
  unfold add_group.
  apply (map_fold_weak_ind (λ r d,
    quantity r a = (quantity counts a + quantity d a * m)%N)).
  - unfold quantity at 3. rewrite lookup_empty. simpl. lia.
  - intros atom n d r Hnone IH. rewrite quantity_add_count, IH.
    unfold quantity at 2 4. case_decide as Ha.
    + subst. rewrite Hnone, lookup_insert_eq. simpl. lia.
    + rewrite lookup_insert_ne by done. lia.
Qed.

Lemma occurrences_app a l1 l2 :
  occurrences a (l1 ++ l2) = (occurrences a l1 + occurrences a l2)%N.
Proof. unfold occurrences. rewrite filter_app, length_app. lia. Qed.

Lemma occurrences_replicate a n x :
  occurrences a (replicate n x) = if decide (a = x) then N.of_nat n else 0%N.
Proof.
  unfold occurrences. induction n as [|n IH]; simpl; [by case_decide|].
  rewrite filter_cons. destruct (decide (a = x)) as [->|Hne].
  - rewrite decide_True by done. simpl. lia.
  - by rewrite decide_False by congruence.
Qed.

Lemma occurrences_repeat a n l :
  occurrences a (mjoin (replicate n l)) = (N.of_nat n * occurrences a l)%N.
Proof.
  induction n as [|n IH]; simpl; [done|].
  rewrite occurrences_app, IH. lia.
Qed.

(** The dictionary of [tally] holds the counts of the full expansion. *)
Lemma quantity_tally f : ∀ counts a,
  quantity (tally f counts) a = (quantity counts a + occurrences a (expand f))%N.
Proof.
  induction f as [|symbol count rest IH|inner IHinner count rest IH];
    intros counts a; simpl.
  - unfold occurrences. simpl. lia.
  - rewrite IH, quantity_add_count, occurrences_app, occurrences_replicate.
    case_decide; lia.
  - rewrite IH, quantity_add_group, IHinner, occurrences_app, occurrences_repeat.
    unfold quantity at 2. rewrite lookup_empty. simpl. lia.
Qed.

(** ** The parser on the grammar *)

Lemma upper_class c :
  upper c = true → isalpha c = true ∧ islower c = false ∧ isdigit c = false.
Proof. by destruct c as [[] [] [] [] [] [] [] []]. Qed.

Lemma lower_class c : lower c = true → islower c = true.
Proof. by destruct c as [[] [] [] [] [] [] [] []]. Qed.

Lemma digit_class c :
  digit c = true → isdigit c = true ∧ islower c = false.
Proof. by destruct c as [[] [] [] [] [] [] [] []]. Qed.

Lemma digit_decimal c : digit c = true → decimal c = Some (ord c - 48)%N.
Proof. unfold digit, decimal. by intros ->. Qed.

Lemma scan_span p front mid tail i :
  S i = length front →
  Forall (λ c, p c = true) mid →
  (∀ c, head tail = Some c → p c = false) →
  scan p (front ++ mid ++ tail) i = i + length mid.
Proof.
  intros Hi Hmid Htail.
  assert (∀ k, k < length mid →
            (front ++ mid ++ tail) !! (length front + k) = mid !! k) as Hin.
  { intros k Hk. rewrite lookup_app_r, lookup_app_l by lia. f_equal. lia. }
  assert ((front ++ mid ++ tail) !! (length front + length mid) = head tail)
    as Hout.
  { rewrite !lookup_app_r by lia. rewrite head_lookup. f_equal. lia. }
  revert Hin Hout. generalize (front ++ mid ++ tail). intros s Hin Hout.
  pose proof (scan_le p s i) as Hle.
  destruct (Nat.lt_trichotomy (scan p s i) (i + length mid)) as [Hlt|[?|Hgt]];
    [|done|].
  - destruct (lookup_lt_is_Some_2 mid (scan p s i - i)) as [c Hc]; [lia|].
    assert (s !! (scan p s i + 1) = Some c) as Hs.
    { rewrite <-Hc, <-Hin by lia. f_equal. lia. }
    apply scan_exit in Hs. rewrite Forall_lookup in Hmid.
    apply Hmid in Hc. congruence.
  - destruct (scan_inside p s i (i + length mid + 1)) as (c & Hc & Hp); [lia|].
    replace (i + length mid + 1) with (length front + length mid) in Hc by lia.
    rewrite Hout in Hc. apply Htail in Hc. congruence.
Qed.

Lemma slice_app front mid tail :
  slice (front ++ mid ++ tail) (length front) (length front + length mid) = mid.
Proof.
  unfold slice. rewrite drop_app_length.
  replace (length front + length mid - length front) with (length mid) by lia.
  by rewrite take_app_length.
Qed.

Lemma int_digits_value count : ∀ acc,
  forallb digit count = true →
  int_digits acc count =
  Return (fold_left (λ acc c, (10 * acc + (ord c - 48))%N) count acc).
Proof.
  induction count as [|c count IH]; intros acc; simpl; [done|].
  intros [Hc Hcount]%andb_prop. rewrite (digit_decimal c Hc). by apply IH.
Qed.

(** The scan for a count and its reading, on a string in which the
    count is written behind position [i]. *)
Lemma number_text front count tail i :
  S i = length front →
  forallb digit count = true →
  (∀ c, head tail = Some c → isdigit c = false) →
  scan isdigit (front ++ count ++ tail) i = i + length count ∧
  number (front ++ count ++ tail) (i + 1) (i + length count)
  = Return (multiplier_of count).
Proof.
  intros Hi Hcount Htail. split.
  - apply scan_span; [done| |done].
    rewrite forallb_forall in Hcount. apply Forall_forall.
    intros c Hc%list_elem_of_In. by apply digit_class, Hcount.
  - unfold number. destruct count as [|c count].
    + simpl. by rewrite (proj2 (Nat.leb_gt _ _)) by lia.
    + rewrite (proj2 (Nat.leb_le _ _)) by (simpl; lia).
      replace (i + 1) with (length front) by lia.
      replace (i + length (c :: count) + 1)
        with (length front + length (c :: count)) by lia.
      rewrite slice_app. unfold int. by apply int_digits_value.
Qed.

Lemma text_boundary f post c :
  valid f = true → closing post → head (text f ++ post) = Some c →
  islower c = false ∧ isdigit c = false.
Proof.
  destruct f as [|[|u lows] count rest|inner count rest]; simpl; try done.
  - destruct post as [|d post]; simpl; [done|]. by intros _ -> [= <-].
  - intros [[[Hu _]%andb_prop _]%andb_prop _]%andb_prop _ [= <-].
    by apply upper_class in Hu as (_ & ? & ?).
  - by intros _ _ [= <-].
Qed.

Local Ltac positions :=
  repeat (rewrite ?length_app; simpl); lia.

Local Ltac regroup :=
  repeat (rewrite <-?app_assoc; simpl); reflexivity.

(** The loop, entered where a valid formula is written, reads it whole
    and holds its tally behind it. *)
Lemma parse_from_text f : ∀ pre post counts,
  valid f = true → closing post →
  parse_from (pre ++ text f ++ post) counts (length pre) =
  parse_from (pre ++ text f ++ post) (tally f counts)
             (length pre + length (text f)).
Proof.
  induction f as [|symbol count rest IH|inner IHinner count rest IH];
    intros pre post counts Hvalid Hpost; cbn [text tally].
  - simpl. by rewrite Nat.add_0_r.
  - simpl in Hvalid.
    apply andb_prop in Hvalid as [[Hsym Hcount]%andb_prop Hrest].
    destruct symbol as [|u lows]; [done|]. simpl in Hsym.
    apply andb_prop in Hsym as [Hu Hlows].
    set (tail := text rest ++ post).
    assert (∀ c, head tail = Some c → islower c = false ∧ isdigit c = false)
      as Htail by (intros c; by apply text_boundary).
    set (s := pre ++ ((u :: lows) ++ count ++ text rest) ++ post).
    assert (s = (pre ++ [u]) ++ lows ++ count ++ tail) as Hs1.
    { unfold s, tail. regroup. }
    assert (s = (pre ++ u :: lows) ++ count ++ tail) as Hs2.
    { unfold s, tail. regroup. }
    assert (s = pre ++ (u :: lows) ++ count ++ tail) as Hs3.
    { unfold s, tail. regroup. }
    rewrite parse_from_unfold.
    assert (s !! length pre = Some u) as ->.
    { rewrite Hs3, lookup_app_r, Nat.sub_diag by lia. done. }
    unfold body. apply upper_class in Hu as (-> & _ & _).
    assert (scan islower s (length pre) = length pre + length lows) as ->.
    { rewrite Hs1. apply scan_span.
      - rewrite length_app. simpl. lia.
      - rewrite forallb_forall in Hlows. apply Forall_forall.
        intros c Hc%list_elem_of_In. by apply lower_class, Hlows.
      - destruct count as [|d count]; simpl.
        + intros c Hc. by apply Htail.
        + intros c [= <-]. cbn [forallb] in Hcount.
          apply andb_prop in Hcount as [Hd _]. by apply digit_class in Hd as [_ ?]. }
    destruct (number_text (pre ++ u :: lows) count tail
                (length pre + length lows)) as [Hscan Hnum].
    { rewrite length_app. simpl. lia. }
    { done. }
    { intros c Hc. by apply Htail. }
    rewrite <-Hs2 in Hscan, Hnum. rewrite Hscan, Hnum. simpl.
    replace (slice s (length pre) (length pre + length lows + 1)) with (u :: lows).
    2:{ rewrite Hs3.
        replace (length pre + length lows + 1)
          with (length pre + length (u :: lows)) by (simpl; lia).
        by rewrite slice_app. }
    specialize (IH (pre ++ (u :: lows) ++ count) post
      (add_count counts (string_of_list_ascii (u :: lows)) (multiplier_of count))
      Hrest Hpost).
    replace ((pre ++ (u :: lows) ++ count) ++ text rest ++ post) with s in IH
      by (unfold s; regroup).
    etrans; [|etrans; [exact IH|]]; f_equal; first [done|positions].
  - simpl in Hvalid.
    apply andb_prop in Hvalid as [[Hinner Hcount]%andb_prop Hrest].
    set (tail := text rest ++ post).
    assert (∀ c, head tail = Some c → isdigit c = false) as Htail.
    { intros c Hc. by eapply text_boundary. }
    set (s := pre ++ ("("%char :: text inner ++ ")"%char :: count ++ text rest) ++ post).
    assert (s = (pre ++ ["("%char]) ++ text inner ++ ")"%char :: count ++ tail)
      as Hs1.
    { unfold s, tail. regroup. }
    assert (s = (pre ++ "("%char :: text inner ++ [")"%char]) ++ count ++ tail)
      as Hs2.
    { unfold s, tail. regroup. }
    rewrite parse_from_unfold.
    assert (s !! length pre = Some "("%char) as ->.
    { unfold s. by rewrite lookup_app_r, Nat.sub_diag by lia. }
    unfold body. simpl.
    specialize (IHinner (pre ++ ["("%char]) (")"%char :: count ++ tail) ∅
      Hinner eq_refl).
    rewrite <-Hs1 in IHinner. rewrite length_app in IHinner. simpl in IHinner.
    unfold parse. rewrite IHinner.
    set (j := length pre + 1 + length (text inner)).
    rewrite (parse_from_unfold s _ j).
    assert (s !! j = Some ")"%char) as ->.
    { rewrite Hs1. rewrite lookup_app_r by (rewrite length_app; simpl; lia).
      rewrite lookup_app_r by (rewrite length_app; simpl; lia).
      rewrite length_app. simpl.
      by replace (j - (length pre + 1) - length (text inner)) with 0 by lia. }
    unfold body. simpl.
    destruct (number_text (pre ++ "("%char :: text inner ++ [")"%char]) count tail j)
      as [Hscan Hnum].
    { rewrite length_app. simpl. rewrite length_app. simpl. lia. }
    { done. }
    { done. }
    rewrite <-Hs2 in Hscan, Hnum. rewrite Hscan, Hnum. simpl.
    specialize (IH (pre ++ "("%char :: text inner ++ ")"%char :: count) post
      (add_group counts (tally inner ∅) (multiplier_of count)) Hrest Hpost).
    replace ((pre ++ "("%char :: text inner ++ ")"%char :: count)
             ++ text rest ++ post) with s in IH.
    2:{ unfold s. regroup. }
    etrans; [|etrans; [exact IH|]]; f_equal; first [done|(unfold j; positions)].
Qed.

Lemma dom_add_count counts atom n :
  dom (add_count counts atom n) = {[atom]} ∪ dom counts.
Proof. unfold add_count. by rewrite dom_insert_L. Qed.

Lemma dom_add_group counts inner m :
  dom (add_group counts inner m) = dom inner ∪ dom counts.
Proof.
  unfold add_group.
  apply (map_fold_weak_ind (λ r d, dom r = dom d ∪ dom counts)).
  - by rewrite dom_empty_L, (left_id_L ∅ (∪)).
  - intros atom n d r _ IH.
    by rewrite dom_add_count, dom_insert_L, IH, (assoc_L (∪)).
Qed.

Lemma elem_of_repeat (a : string) n l :
  n ≠ 0 → a ∈ mjoin (replicate n l) ↔ a ∈ l.
Proof.
  intros Hn. induction n as [|n IH]; [done|]. simpl.
  rewrite elem_of_app. destruct n as [|n]; [|rewrite IH by done; tauto].
  simpl. rewrite elem_of_nil. tauto.
Qed.

(** Without zero counts, the keys of the tally are the atoms of the
    expansion. *)
Lemma dom_tally f : ∀ counts a,
  nonzero f = true →
  a ∈ dom (tally f counts) ↔ a ∈ expand f ∨ a ∈ dom counts.
Proof.
  induction f as [|symbol count rest IH|inner IHinner count rest IH];
    intros counts a Hnz; simpl in *.
  - rewrite elem_of_nil. tauto.
  - apply andb_prop in Hnz as [Hm%negb_true_iff%N.eqb_neq Hrest].
    rewrite IH, dom_add_count, elem_of_app, elem_of_union, elem_of_singleton by done.
    rewrite elem_of_replicate. intuition lia.
  - apply andb_prop in Hnz as [[Hinner Hm%negb_true_iff%N.eqb_neq]%andb_prop Hrest].
    rewrite IH, dom_add_group, elem_of_app, elem_of_union, IHinner by done.
    rewrite elem_of_repeat by lia. rewrite dom_empty_L, elem_of_empty. tauto.
Qed.

Lemma parse_text f :
  valid f = true → parse (text f) 0 = Return (Dict (tally f ∅)).
Proof.
  intros Hvalid. unfold parse.
  pose proof (parse_from_text f [] [] ∅ Hvalid I) as H.
  rewrite app_nil_r in H. simpl in H. rewrite H, parse_from_unfold.
  by rewrite (proj2 (lookup_ge_None _ _)) by lia.
Qed.

(** ** Reads *)

Lemma times_nil k : times k [] = 0.
Proof. done. Qed.

Lemma times_cons k x l :
  times k (x :: l) = (if bool_decide (x = k) then 1 else 0) + times k l.
Proof.
  unfold times. rewrite filter_cons.
  case_decide; case_bool_decide; simpl; congruence.
Qed.

Lemma times_app k l1 l2 : times k (l1 ++ l2) = times k l1 + times k l2.
Proof. unfold times. by rewrite filter_app, length_app. Qed.

Lemma times_seq k n : ∀ a,
  times k (seq a n) = if bool_decide (a ≤ k < a + n) then 1 else 0.
Proof.
  induction n as [|n IH]; intros a; simpl.
  - rewrite times_nil. case_bool_decide; lia.
  - rewrite times_cons, IH. repeat case_bool_decide; lia.
Qed.

(** A scan reads the positions behind its start one after the other, up
    to the first that ends it; the budget does not cut the reads short. *)
Lemma scan_reads_seq p s fuel : ∀ i,
  length s ≤ fuel + (i + 1) →
  scan_reads p s fuel i
  = seq (i + 1) (Nat.min (scan_fuel p s fuel i + 2) (length s) - (i + 1)).
Proof.
  induction fuel as [|fuel IH]; intros i Hlen; simpl.
  { by replace (Nat.min (i + 2) (length s) - (i + 1)) with 0 by lia. }
  destruct (s !! (i + 1)) as [c|] eqn:Hc.
  - apply lookup_lt_Some in Hc. destruct (p c).
    + rewrite IH by lia. pose proof (scan_fuel_le p s fuel (i + 1)).
      replace (Nat.min (scan_fuel p s fuel (i + 1) + 2) (length s) - (i + 1))
        with (S (Nat.min (scan_fuel p s fuel (i + 1) + 2) (length s) - (i + 1 + 1)))
        by lia.
      simpl. do 2 f_equal. lia.
    + by replace (Nat.min (i + 2) (length s) - (i + 1)) with 1 by lia.
  - apply lookup_ge_None in Hc.
    by replace (Nat.min (i + 2) (length s) - (i + 1)) with 0 by lia.
Qed.

Lemma times_scan_reads p s k i :
  times k (scan_reads p s (length s) i)
  ≤ if bool_decide (i < k ≤ scan p s i + 1) then 1 else 0.
Proof.
  rewrite scan_reads_seq, times_seq by lia. fold (scan p s i).
  repeat case_bool_decide; lia.
Qed.

Lemma times_slice_reads s a b k :
  times k (slice_reads s a b) ≤ if bool_decide (a ≤ k < b) then 1 else 0.
Proof.
  unfold slice_reads, slice. rewrite times_seq, length_take.
  repeat case_bool_decide; lia.
Qed.

Lemma times_number_reads s a b k :
  times k (number_reads s a b) ≤ if bool_decide (a ≤ k ≤ b) then 1 else 0.
Proof.
  unfold number_reads. destruct (a <=? b).
  - pose proof (times_slice_reads s a (b + 1) k).
    repeat case_bool_decide; lia.
  - apply Nat.le_0_l.
Qed.

Local Ltac count_reads :=
  repeat (rewrite ?times_app, ?times_cons, ?times_nil);
  unfold allowance in *; repeat case_bool_decide; lia.

(** No position is read before the cursor, the position of the cursor
    at most three times and any later one at most five times; a call
    that returns at a closing parenthesis has read nothing behind it. *)
Lemma parse_reads_bound s k fuel : ∀ counts i,
  times k (parse_reads fuel s counts i) ≤ allowance i k ∧
  (∀ d j, parse_loop fuel s counts i = Return (Tuple d j) → j < k →
          times k (parse_reads fuel s counts i) = 0).
Proof.
  induction fuel as [|fuel IH]; intros counts i; simpl.
  { split; [apply Nat.le_0_l|done]. }
  destruct (s !! i) as [c|] eqn:Hc; [|split; [apply Nat.le_0_l|done]].
  unfold body_reads, body. destruct (isalpha c).
  { set (i1 := scan islower s i). set (i2 := scan isdigit s i1).
    pose proof (scan_le islower s i) as Hi1. fold i1 in Hi1.
    pose proof (scan_le isdigit s i1) as Hi2. fold i2 in Hi2.
    pose proof (times_scan_reads islower s k i) as H1.
    pose proof (times_slice_reads s i (i1 + 1) k) as H2.
    pose proof (times_scan_reads isdigit s k i1) as H3.
    pose proof (times_number_reads s (i1 + 1) i2 k) as H4.
    fold i1 in H1. fold i2 in H3.
    destruct (number s (i1 + 1) i2) as [count| |]; simpl.
    2,3: split; [count_reads|done].
    destruct (IH (add_count counts
                    (string_of_list_ascii (slice s i (i1 + 1))) count)
                 (i2 + 1)) as [Hle Hret].
    split; [count_reads|].
    intros d j Hj Hk. pose proof (parse_loop_tuple _ _ _ _ _ _ Hj) as [? _].
    specialize (Hret d j Hj Hk). count_reads. }
  destruct (Ascii.eqb c "(").
  { destruct (IH ∅ (i + 1)) as [Hin Hinret].
    destruct (parse_loop fuel s ∅ (i + 1)) as [[d0|inner j]|e|] eqn:Hcall; simpl.
    1:{ case_decide; simpl; (split; [count_reads|done]). }
    2,3: split; [count_reads|done].
    pose proof (parse_loop_tuple _ _ _ _ _ _ Hcall) as [Hj _].
    set (j2 := scan isdigit s j).
    pose proof (scan_le isdigit s j) as Hj2. fold j2 in Hj2.
    pose proof (times_scan_reads isdigit s k j) as H1.
    pose proof (times_number_reads s (j + 1) j2 k) as H2.
    fold j2 in H1.
    assert (j < k → times k (parse_reads fuel s ∅ (i + 1)) = 0) as Hbehind
      by (intros; by eapply Hinret).
    destruct (number s (j + 1) j2) as [m| |]; simpl.
    2,3: split; [|done]; destruct (decide (j < k)) as [Hjk|Hjk];
         [specialize (Hbehind Hjk)|clear Hbehind]; count_reads.
    destruct (IH (add_group counts inner m) (j2 + 1)) as [Hle Hret].
    split.
    - destruct (decide (j < k)) as [Hjk|Hjk];
        [specialize (Hbehind Hjk)|clear Hbehind]; count_reads.
    - intros d j' Hj' Hk. pose proof (parse_loop_tuple _ _ _ _ _ _ Hj') as [? _].
      specialize (Hret d j' Hj' Hk).
      assert (j < k) as Hjk by lia. specialize (Hbehind Hjk). count_reads. }
  destruct (Ascii.eqb c ")"); simpl.
  { split; [count_reads|]. intros d j [= <- <-] Hk. count_reads. }
  destruct (IH counts (i + 1)) as [Hle Hret].
  split; [count_reads|].
  intros d j Hj Hk. pose proof (parse_loop_tuple _ _ _ _ _ _ Hj) as [? _].
  specialize (Hret d j Hj Hk). count_reads.
Qed.

Lemma body_reads_ext parse1 parse2 reads1 reads2 s i c :
  parse1 (i + 1) = parse2 (i + 1) → reads1 (i + 1) = reads2 (i + 1) →
  body_reads parse1 reads1 s i c = body_reads parse2 reads2 s i c.
Proof. unfold body_reads. by intros -> ->. Qed.

(** The budget does not cut the reads of the loop short either. *)
Lemma parse_reads_fuel fuel1 fuel2 s counts i :
  length s - i < fuel1 → length s - i < fuel2 →
  parse_reads fuel1 s counts i = parse_reads fuel2 s counts i.
Proof.
  revert fuel2 counts i.
  induction fuel1 as [|fuel1 IH]; intros [|fuel2] counts i H1 H2; try lia.
  simpl. destruct (s !! i) as [c|] eqn:Hc; [|done].
  apply lookup_lt_Some in Hc.
  rewrite (body_reads_ext _ (parse_loop fuel2 s ∅) _ (parse_reads fuel2 s ∅))
    by (first [apply parse_loop_fuel|apply IH]; lia).
  rewrite (body_ext _ (parse_loop fuel2 s ∅)) by (apply parse_loop_fuel; lia).
  f_equal.
  destruct (body _ s counts i c) as [[counts' i'|v]| |] eqn:Hr; try done.
  apply body_cursor in Hr; [|intros ?? H%parse_loop_tuple; lia].
  apply IH; lia.
Qed.

(** * The statements of the design document *)

(** ** Worked examples *)

(** C1. The parser computes the atom counts the design document lists
    for its example formulas: H2O, Mg(OH)2, K4(ON(SO3)2)2, C6H12O6, and
    Na, whose missing count is 1. *)
Theorem parse_examples :
  atom_counts "H2O" = Return (Dict {[ "H" := 2; "O" := 1 ]}%N) ∧
  atom_counts "Mg(OH)2" = Return (Dict {[ "Mg" := 1; "O" := 2; "H" := 2 ]}%N) ∧
  atom_counts "K4(ON(SO3)2)2"
  = Return (Dict {[ "K" := 4; "O" := 14; "N" := 2; "S" := 4 ]}%N) ∧
  atom_counts "C6H12O6" = Return (Dict {[ "C" := 6; "H" := 12; "O" := 6 ]}%N) ∧
  atom_counts "Na" = Return (Dict {[ "Na" := 1%N ]}).
Proof. repeat split; vm_compute; reflexivity. Qed.

(** ** Counting against full expansion *)

(** C2. On every valid formula the parser returns a dictionary whose
    count for each atom is the number of times the atom occurs in the
    fully expanded formula; when no count written in the formula is
    zero, the keys of the dictionary are exactly the atoms of the
    expansion. *)
Theorem parse_counts_expansion f :
  valid f = true →
  ∃ d, atom_counts (string_of_list_ascii (text f)) = Return (Dict d) ∧
       (∀ atom, quantity d atom = occurrences atom (expand f)) ∧
       (nonzero f = true → ∀ atom, is_Some (d !! atom) ↔ atom ∈ expand f).
Proof.
  intros Hvalid. exists (tally f ∅). unfold atom_counts.
  rewrite list_ascii_of_string_of_list_ascii. split; [by apply parse_text|].
  split.
  - intros atom. rewrite quantity_tally. unfold quantity.
    rewrite lookup_empty. simpl. lia.
  - intros Hnz atom. rewrite <-elem_of_dom, dom_tally by done.
    rewrite dom_empty_L, elem_of_empty. tauto.
Qed.

Lemma parse_counts_expansion_witness :
  valid K4_ON_SO3_2_2 = true ∧
  ∃ d, atom_counts "K4(ON(SO3)2)2" = Return (Dict d) ∧
       (∀ atom, quantity d atom = occurrences atom (expand K4_ON_SO3_2_2)) ∧
       (nonzero K4_ON_SO3_2_2 = true →
        ∀ atom, is_Some (d !! atom) ↔ atom ∈ expand K4_ON_SO3_2_2).
Proof.
  split; [reflexivity|].
  apply (parse_counts_expansion K4_ON_SO3_2_2). reflexivity.
Defined.

(** ** Errors *)

Lemma count_of_atoms_Dict formula out d :
  atom_counts formula = Return (Dict d) →
  count_of_atoms formula out = (Return tt, out ++ (line <$> sorted_items d)).
Proof. unfold atom_counts, count_of_atoms. by intros ->. Qed.

Lemma count_of_atoms_Tuple formula out d j :
  atom_counts formula = Return (Tuple d j) →
  count_of_atoms formula out = (Raise AttributeError, out).
Proof. unfold atom_counts, count_of_atoms. by intros ->. Qed.

Lemma count_of_atoms_Raise formula out e :
  atom_counts formula = Raise e → count_of_atoms formula out = (Raise e, out).
Proof. unfold atom_counts, count_of_atoms. by intros ->. Qed.

(** C3, as the design document has it, fails: the formula H2$ is not
    refused, its dollar sign is passed over and the counts are
    returned; so is the leading digit of 2H. *)
Lemma invalid_character_counterexample :
  atom_counts "H2$" = Return (Dict {[ "H" := 2%N ]}) ∧
  atom_counts "2H" = Return (Dict {[ "H" := 1%N ]}) ∧
  ∀ e, atom_counts "H2$" ≠ Raise e.
Proof. repeat split; vm_compute; [reflexivity..|discriminate]. Qed.

(** C3, amended.  No input is refused for the characters it contains:
    whenever its parentheses are balanced and its digits are decimal
    ones, the counts are returned and printed, whatever other
    characters are written in it and wherever its digits stand; H2$
    gives H: 2. *)
Theorem invalid_characters_accepted formula out :
  decimal_digits (list_ascii_of_string formula) = true →
  level 0 (list_ascii_of_string formula) 0 = AtEnd →
  (∃ d, atom_counts formula = Return (Dict d) ∧
        count_of_atoms formula out
        = (Return tt, out ++ (line <$> sorted_items d))) ∧
  count_of_atoms "H2$" out = (Return tt, out ++ ["H: 2"%string]).
Proof.
  intros Hdec Hlevel. split.
  2:{ rewrite (count_of_atoms_Dict "H2$" out {[ "H" := 2%N ]})
        by (vm_compute; reflexivity).
      do 2 f_equal. }
  destruct (parse_from_level (list_ascii_of_string formula) ∅ 0)
    as [Hstop|[_ Hd]]; [|congruence].
  rewrite drop_0, Hlevel in Hstop. destruct Hstop as [d Hd].
  exists d. split; [done|by apply count_of_atoms_Dict].
Qed.

Lemma invalid_characters_accepted_witness :
  decimal_digits (list_ascii_of_string "2H$(O)") = true ∧
  level 0 (list_ascii_of_string "2H$(O)") 0 = AtEnd ∧
  (∃ d, atom_counts "2H$(O)" = Return (Dict d) ∧
        count_of_atoms "2H$(O)" []
        = (Return tt, [] ++ (line <$> sorted_items d))) ∧
  count_of_atoms "H2$" [] = (Return tt, [] ++ ["H: 2"%string]).
Proof.
  split; [reflexivity|]. split; [reflexivity|].
  apply (invalid_characters_accepted "2H$(O)" []); reflexivity.
Defined.

(** C4, as the design document has it, fails: an opening parenthesis
    that is never closed ends in the exception of a failed unpacking,
    [ValueError] for "(" and [TypeError] for "(AB"; on "A))" the
    outermost call of [parse] returns a pair of counts and cursor, and
    [count_of_atoms] ends in [AttributeError]. *)
Lemma unmatched_group_counterexample :
  atom_counts "(" = Raise ValueError ∧
  atom_counts "(AB" = Raise TypeError ∧
  atom_counts "A))" = Return (Tuple {[ "A" := 1%N ]} 1) ∧
  count_of_atoms "A))" [] = (Raise AttributeError, []).
Proof. repeat split; vm_compute; reflexivity. Qed.

(** C4, amended.  Read from left to right, an input that runs to its
    end inside a group that was opened and not closed makes
    [count_of_atoms] raise [ValueError] or [TypeError]; an input with a
    closing parenthesis outside every group makes it raise
    [AttributeError], or [ValueError] when a digit that is not a decimal
    one is read first.  Nothing is printed in either case. *)
Theorem unmatched_group_raises formula out :
  (level 0 (list_ascii_of_string formula) 0 = Unclosed →
   count_of_atoms formula out = (Raise ValueError, out) ∨
   count_of_atoms formula out = (Raise TypeError, out)) ∧
  (∀ j, level 0 (list_ascii_of_string formula) 0 = AtClose j →
   count_of_atoms formula out = (Raise AttributeError, out) ∨
   (count_of_atoms formula out = (Raise ValueError, out) ∧
    decimal_digits (list_ascii_of_string formula) = false)).
Proof.
  pose proof (parse_from_level (list_ascii_of_string formula) ∅ 0) as H.
  rewrite drop_0 in H. split.
  - intros Hlevel. rewrite Hlevel in H.
    destruct H as [[H|H]|[H _]];
      apply (count_of_atoms_Raise formula out) in H; auto.
  - intros j Hlevel. rewrite Hlevel in H.
    destruct H as [[d H]|[H Hd]].
    + left. by eapply count_of_atoms_Tuple.
    + right. split; [|done]. by apply count_of_atoms_Raise.
Qed.

Lemma unmatched_group_raises_witness :
  level 0 (list_ascii_of_string "(") 0 = Unclosed ∧
  level 0 (list_ascii_of_string "A))") 0 = AtClose 1 ∧
  (count_of_atoms "(" [] = (Raise ValueError, []) ∨
   count_of_atoms "(" [] = (Raise TypeError, [])) ∧
  (count_of_atoms "A))" [] = (Raise AttributeError, []) ∨
   (count_of_atoms "A))" [] = (Raise ValueError, []) ∧
    decimal_digits (list_ascii_of_string "A))") = false)).
Proof.
  split; [reflexivity|]. split; [reflexivity|]. split.
  - apply (proj1 (unmatched_group_raises "(" [])). reflexivity.
  - apply (proj2 (unmatched_group_raises "A))" []) 1). reflexivity.
Defined.

(** ** The shape of what [parse] returns *)

(** C5, as the design document has it, fails: the outermost call on
    H2O returns the counts alone, without a cursor. *)
Lemma uniform_return_counterexample :
  ¬ (∀ s i v, parse s i = Return v → ∃ d j, v = Tuple d j).
Proof.
  intros H.
  destruct (H (list_ascii_of_string "H2O") 0
              (Dict {[ "H" := 2; "O" := 1 ]}%N)) as (d & j & Hv).
  - vm_compute. reflexivity.
  - discriminate.
Qed.

(** C5, amended.  A call of [parse] that returns the counts alone has
    read from its start to the end of the input; one that returns the
    counts together with a cursor has stopped at a closing parenthesis
    with no opening one since its start, and the cursor is the position
    of that parenthesis.  When the digits of the input are decimal ones
    the call ends as that reading says: with the counts alone at the end
    of the input, with counts and cursor at such a parenthesis, and with
    an exception inside a group that is never closed. *)
Theorem return_shape s i :
  (∀ d, parse s i = Return (Dict d) → level 0 (drop i s) i = AtEnd) ∧
  (∀ d j, parse s i = Return (Tuple d j) →
          level 0 (drop i s) i = AtClose j ∧ i ≤ j ∧ s !! j = Some ")"%char) ∧
  (decimal_digits s = true → stops_as (parse s i) (level 0 (drop i s) i)).
Proof.
  unfold parse.
  destruct (parse_from_level s ∅ i) as [Hstop|[Hr Hd]].
  - split; [|split; [|done]].
    + intros d Hv. rewrite Hv in Hstop.
      destruct (level 0 (drop i s) i); simpl in Hstop;
        [done|by destruct Hstop|by destruct Hstop].
    + intros d j Hv. pose proof (parse_from_tuple _ _ _ _ _ Hv) as [? ?].
      rewrite Hv in Hstop.
      destruct (level 0 (drop i s) i); simpl in Hstop;
        [by destruct Hstop| |by destruct Hstop].
      destruct Hstop as [d' [= <- <-]]. done.
  - rewrite Hr. split; [done|]. split; [done|congruence].
Qed.

Lemma return_shape_witness :
  parse (list_ascii_of_string "(OH)2") 1
  = Return (Tuple {[ "O" := 1; "H" := 1 ]}%N 3) ∧
  (level 0 (drop 1 (list_ascii_of_string "(OH)2")) 1 = AtClose 3 ∧
   1 ≤ 3 ∧ list_ascii_of_string "(OH)2" !! 3 = Some ")"%char) ∧
  decimal_digits (list_ascii_of_string "(OH)2") = true ∧
  stops_as (parse (list_ascii_of_string "(OH)2") 1)
           (level 0 (drop 1 (list_ascii_of_string "(OH)2")) 1).
Proof.
  split; [vm_compute; reflexivity|]. split.
  - apply (proj1 (proj2 (return_shape (list_ascii_of_string "(OH)2") 1))
             {[ "O" := 1; "H" := 1 ]}%N 3).
    vm_compute. reflexivity.
  - split; [reflexivity|].
    apply (proj2 (proj2 (return_shape (list_ascii_of_string "(OH)2") 1))).
    reflexivity.
Defined.

(** ** Purity *)

(** C6. What [count_of_atoms] gives back and what it prints are
    determined by the formula alone: they do not depend on what was
    printed before, and a second run on the same formula gives back the
    same and prints the same lines again. *)
Theorem count_of_atoms_deterministic formula :
  ∃ r printed, ∀ out,
    count_of_atoms formula out = (r, out ++ printed) ∧
    count_of_atoms formula (out ++ printed) = (r, (out ++ printed) ++ printed).
Proof.
  unfold count_of_atoms.
  destruct (parse (list_ascii_of_string formula) 0) as [[d|d j]|e|].
  - exists (Return tt), (line <$> sorted_items d). done.
  - exists (Raise AttributeError), []. intros out. by rewrite !app_nil_r.
  - exists (Raise e), []. intros out. by rewrite !app_nil_r.
  - exists OutOfFuel, []. intros out. by rewrite !app_nil_r.
Qed.

(** ** The cursor *)

(** C7. The cursor only moves forward: the two scanning loops end at or
    after the position they start from, every pass through the body of
    the main loop that goes on leaves the cursor strictly behind the
    position it found it at, the cursor a call returns is at or after
    the position the call started from, inside the string, and a call
    never reads a position before the one it started from. *)
Theorem cursor_forward s i :
  (∀ p, i ≤ scan p s i) ∧
  (∀ counts c counts' i',
     s !! i = Some c →
     body (parse s) s counts i c = Return (Continue counts' i') → i < i') ∧
  (∀ counts d j,
     parse_from s counts i = Return (Tuple d j) → i ≤ j < length s) ∧
  (∀ counts k,
     k < i → times k (parse_reads (S (length s)) s counts i) = 0).
Proof.
  split; [intros p; apply scan_le|]. split; [|split].
  - intros counts c counts' i' _ Hbody.
    apply body_cursor in Hbody; [done|].
    intros d j [? _]%parse_from_tuple. lia.
  - intros counts d j [? Hj%lookup_lt_Some]%parse_from_tuple. lia.
  - intros counts k Hk.
    destruct (parse_reads_bound s k (S (length s)) counts i) as [H _].
    unfold allowance in H. rewrite bool_decide_eq_true_2 in H by done. lia.
Qed.

Lemma cursor_forward_witness :
  list_ascii_of_string "(OH)2" !! 0 = Some "("%char ∧
  body (parse (list_ascii_of_string "(OH)2")) (list_ascii_of_string "(OH)2")
       ∅ 0 "("
  = Return (Continue {[ "O" := 2; "H" := 2 ]}%N 5) ∧
  0 < 5 ∧
  parse_from (list_ascii_of_string "(OH)2") ∅ 1
  = Return (Tuple {[ "O" := 1; "H" := 1 ]}%N 3) ∧
  1 ≤ 3 < 5 ∧
  times 0 (parse_reads (S (length (list_ascii_of_string "(OH)2")))
             (list_ascii_of_string "(OH)2") ∅ 1) = 0.
Proof.
  split; [reflexivity|]. split; [vm_compute; reflexivity|]. split.
  - apply (proj1 (proj2 (cursor_forward (list_ascii_of_string "(OH)2") 0))
             ∅ "("%char {[ "O" := 2; "H" := 2 ]}%N 5);
      vm_compute; reflexivity.
  - split; [vm_compute; reflexivity|]. split.
    + apply (proj1 (proj2 (proj2
               (cursor_forward (list_ascii_of_string "(OH)2") 1)))
               ∅ {[ "O" := 1; "H" := 1 ]}%N 3).
      vm_compute. reflexivity.
    + apply (proj2 (proj2 (proj2
               (cursor_forward (list_ascii_of_string "(OH)2") 1))) ∅ 0).
      lia.
Defined.

(** ** Termination *)

(** C8. The parser terminates on every string, from every start: the
    budget that [parse] hands out never runs out, and any budget above
    the number of characters left gives the same result and the same
    reads; [count_of_atoms] terminates as well.  No position of the
    string is read more than five times. *)
Theorem parse_terminates s i :
  parse s i ≠ OutOfFuel ∧
  (∀ fuel, length s - i < fuel →
     parse_loop fuel s ∅ i = parse s i ∧
     parse_reads fuel s ∅ i = parse_reads (S (length s)) s ∅ i) ∧
  (∀ out, (count_of_atoms (string_of_list_ascii s) out).1 ≠ OutOfFuel) ∧
  (∀ k, times k (parse_reads (S (length s)) s ∅ i) ≤ 5).
Proof.
  split; [apply parse_from_terminates|]. split.
  { intros fuel Hfuel.
    split; [apply parse_loop_fuel|apply parse_reads_fuel]; lia. }
  split.
  { intros out. unfold count_of_atoms.
    rewrite list_ascii_of_string_of_list_ascii.
    pose proof (parse_from_terminates s ∅ 0) as H. fold (parse s 0) in H.
    by destruct (parse s 0) as [[d|d j]|e|]. }
  intros k. destruct (parse_reads_bound s k (S (length s)) ∅ i) as [H _].
  unfold allowance in H. repeat case_bool_decide; lia.
Qed.

Lemma parse_terminates_witness :
  length (list_ascii_of_string "K4(ON(SO3)2)2") - 0 < 20 ∧
  parse_loop 20 (list_ascii_of_string "K4(ON(SO3)2)2") ∅ 0
  = parse (list_ascii_of_string "K4(ON(SO3)2)2") 0 ∧
  parse_reads 20 (list_ascii_of_string "K4(ON(SO3)2)2") ∅ 0
  = parse_reads (S (length (list_ascii_of_string "K4(ON(SO3)2)2")))
      (list_ascii_of_string "K4(ON(SO3)2)2") ∅ 0.
Proof.
  split; [vm_compute; lia|].
  apply (proj1 (proj2 (parse_terminates
                         (list_ascii_of_string "K4(ON(SO3)2)2") 0)) 20).
  vm_compute. lia.
Defined.

(** ** The empty formula *)

(** C9. The empty formula is parsed without error into the empty
    dictionary, and nothing is printed for it. *)
Theorem empty_formula out :
  atom_counts "" = Return (Dict ∅) ∧ count_of_atoms "" out = (Return tt, out).
Proof.
  split; [reflexivity|].
  rewrite (count_of_atoms_Dict "" out ∅) by reflexivity.
  by rewrite app_nil_r.
Qed.

(** ** Characters passed over *)

(** C10, as stated, fails outside ASCII: the letter with code point 233
    (e with acute accent) is none of A-Z, a-z, 0-9 and the parentheses,
    and it is counted as an atom; the superscript two (code point 178)
    behind an element is handed to [int], which raises. *)
Lemma skipped_characters_counterexample :
  upper "233" = false ∧ lower "233" = false ∧ digit "233" = false ∧
  paren "233" = false ∧
  atom_counts (String "233" "") = Return (Dict {[ String "233" "" := 1%N ]}) ∧
  upper "178" = false ∧ lower "178" = false ∧ digit "178" = false ∧
  paren "178" = false ∧
  atom_counts (String "H" (String "178" "")) = Raise ValueError.
Proof. repeat split; vm_compute; reflexivity. Qed.

(** C10, amended.  A character that is neither a letter nor a
    parenthesis is passed over where the loop meets it: the pass through
    the body leaves the counts as they are and moves the cursor by one,
    without error, and the loop goes on as if entered behind it.  Every
    ASCII character outside A-Z, a-z and the parentheses is of that
    kind, the digits among them; so H2$ gives H: 2 and 2H gives H: 1. *)
Theorem skipped_characters s counts i c :
  s !! i = Some c → passed_over c = true →
  body (parse s) s counts i c = Return (Continue counts (i + 1)) ∧
  parse_from s counts i = parse_from s counts (i + 1) ∧
  (∀ a, (ord a < 128)%N → upper a = false → lower a = false →
        paren a = false → passed_over a = true) ∧
  atom_counts "H2$" = Return (Dict {[ "H" := 2%N ]}) ∧
  atom_counts "2H" = Return (Dict {[ "H" := 1%N ]}).
Proof.
  intros Hc [Ha%negb_true_iff Hp%negb_true_iff]%andb_prop.
  apply paren_false in Hp as [Hopen Hclose].
  assert (body (parse s) s counts i c = Return (Continue counts (i + 1))) as Hb.
  { unfold body. by rewrite Ha, Hopen, Hclose. }
  split; [done|]. split.
  { by rewrite parse_from_unfold, Hc, Hb. }
  split.
  { intros a. by destruct a as [[] [] [] [] [] [] [] []]. }
  split; vm_compute; reflexivity.
Qed.

Lemma skipped_characters_witness :
  list_ascii_of_string "H2$" !! 2 = Some "$"%char ∧
  passed_over "$" = true ∧
  body (parse (list_ascii_of_string "H2$")) (list_ascii_of_string "H2$")
       {[ "H" := 2%N ]} 2 "$"
  = Return (Continue {[ "H" := 2%N ]} (2 + 1)) ∧
  parse_from (list_ascii_of_string "H2$") {[ "H" := 2%N ]} 2
  = parse_from (list_ascii_of_string "H2$") {[ "H" := 2%N ]} (2 + 1) ∧
  (∀ a, (ord a < 128)%N → upper a = false → lower a = false →
        paren a = false → passed_over a = true) ∧
  atom_counts "H2$" = Return (Dict {[ "H" := 2%N ]}) ∧
  atom_counts "2H" = Return (Dict {[ "H" := 1%N ]}).
Proof.
  split; [reflexivity|]. split; [reflexivity|].
  apply (skipped_characters (list_ascii_of_string "H2$") {[ "H" := 2%N ]} 2 "$");
    reflexivity.
Defined.

(** * Further properties of the parser *)

Lemma scan_unique p s i j :
  i ≤ j →
  (∀ k, i < k ≤ j → ∃ c, s !! k = Some c ∧ p c = true) →
  (∀ c, s !! (j + 1) = Some c → p c = false) →
  scan p s i = j.
Proof.
  intros Hij Hin Hout. pose proof (scan_le p s i).
  destruct (Nat.lt_trichotomy (scan p s i) j) as [Hlt|[?|Hgt]]; [|done|].
  - destruct (Hin (scan p s i + 1)) as (c & Hc & Hp); [lia|].
    apply scan_exit in Hc. congruence.
  - destruct (scan_inside p s i (j + 1)) as (c & Hc & Hp); [lia|].
    apply Hout in Hc. congruence.
Qed.

Lemma scan_shift p pre s i :
  scan p (pre ++ s) (length pre + i) = length pre + scan p s i.
Proof.
  pose proof (scan_le p s i). apply scan_unique; [lia| |].
  - intros k Hk. destruct (scan_inside p s i (k - length pre)) as (c & Hc & Hp);
      [lia|].
    exists c. split; [|done]. rewrite lookup_app_r by lia. done.
  - intros c Hc. rewrite lookup_app_r in Hc by lia.
    apply (scan_exit p s i c). rewrite <-Hc. f_equal. lia.
Qed.

Lemma slice_shift pre s a b :
  slice (pre ++ s) (length pre + a) (length pre + b) = slice s a b.
Proof.
  unfold slice. rewrite drop_app_ge by lia.
  f_equal; [lia|]. f_equal. lia.
Qed.

Lemma number_shift pre s a b :
  number (pre ++ s) (length pre + a) (length pre + b) = number s a b.
Proof.
  unfold number.
  replace (length pre + a <=? length pre + b) with (a <=? b)
    by (destruct (Nat.leb_spec a b), (Nat.leb_spec (length pre + a) (length pre + b)); lia).
  replace (length pre + b + 1) with (length pre + (b + 1)) by lia.
  by rewrite slice_shift.
Qed.

Lemma body_shift parse1 parse2 pre s counts i c :
  parse1 (length pre + i + 1)
  = result_map (shift (length pre)) (parse2 (i + 1)) →
  body parse1 (pre ++ s) counts (length pre + i) c
  = result_map (flow_shift (length pre)) (body parse2 s counts i c).
Proof.
  intros Hparse. unfold body. destruct (isalpha c).
  { rewrite !scan_shift.
    replace (length pre + scan islower s i + 1)
      with (length pre + (scan islower s i + 1)) by lia.
    rewrite slice_shift, number_shift.
    destruct (number s _ _); simpl; [|done..]. do 2 f_equal. lia. }
  destruct (Ascii.eqb c "(").
  { rewrite Hparse.
    destruct (parse2 (i + 1)) as [[d|d j]|e|]; simpl; [by case_decide| |done..].
    rewrite scan_shift.
    replace (length pre + j + 1) with (length pre + (j + 1)) by lia.
    rewrite number_shift.
    destruct (number s _ _); simpl; [|done..]. do 2 f_equal. lia. }
  destruct (Ascii.eqb c ")"); simpl; [done|]. do 2 f_equal. lia.
Qed.

Lemma parse_loop_shift fuel pre s : ∀ counts i,
  parse_loop fuel (pre ++ s) counts (length pre + i)
  = result_map (shift (length pre)) (parse_loop fuel s counts i).
Proof.
  induction fuel as [|fuel IH]; intros counts i; simpl; [done|].
  rewrite lookup_app_r by lia.
  replace (length pre + i - length pre) with i by lia.
  destruct (s !! i) as [c|]; [|done].
  rewrite (body_shift _ (parse_loop fuel s ∅)).
  2:{ replace (length pre + i + 1) with (length pre + (i + 1)) by lia. apply IH. }
  destruct (body _ s counts i c) as [[counts' i'|v]| |]; simpl; [apply IH|done..].
Qed.

Lemma parse_from_shift pre s counts i :
  parse_from (pre ++ s) counts (length pre + i)
  = result_map (shift (length pre)) (parse_from s counts i).
Proof.
  unfold parse_from. rewrite parse_loop_shift. f_equal.
  apply parse_loop_fuel; rewrite ?length_app; lia.
Qed.

Lemma lookup_add_count counts atom n b :
  add_count counts atom n !! b
  = if decide (b = atom) then Some (quantity counts atom + n)%N
    else counts !! b.
Proof.
  unfold add_count, quantity. case_decide as Hb.
  - subst. by rewrite lookup_insert_eq.
  - by rewrite lookup_insert_ne.
Qed.

Lemma lookup_add_group counts inner m b :
  add_group counts inner m !! b
  = match inner !! b with
    | Some q => Some (quantity counts b + q * m)%N
    | None => counts !! b
    end.
Proof.
  revert b. unfold add_group.
  apply (map_fold_weak_ind (λ r d, ∀ b,
    r !! b = match d !! b with
             | Some q => Some (quantity counts b + q * m)%N
             | None => counts !! b
             end)).
  - intros b. by rewrite lookup_empty.
  - intros atom n d r Hnone IH b. rewrite lookup_add_count.
    case_decide as Hb.
    + subst. rewrite lookup_insert_eq. unfold quantity at 1.
      by rewrite IH, Hnone.
    + rewrite lookup_insert_ne by done. apply IH.
Qed.

Lemma lookup_merge_counts c d b :
  merge_counts c d !! b
  = match c !! b, d !! b with
    | Some x, Some y => Some (x + y)%N
    | Some x, None => Some x
    | None, o => o
    end.
Proof.
  unfold merge_counts. rewrite lookup_union_with.
  by destruct (c !! b), (d !! b).
Qed.

Lemma quantity_merge_counts c d b :
  quantity (merge_counts c d) b = (quantity c b + quantity d b)%N.
Proof.
  unfold quantity. rewrite lookup_merge_counts.
  destruct (c !! b), (d !! b); simpl; lia.
Qed.

Lemma add_count_merge c0 counts atom n :
  add_count (merge_counts c0 counts) atom n
  = merge_counts c0 (add_count counts atom n).
Proof.
  apply map_eq. intros b.
  rewrite lookup_add_count, !lookup_merge_counts, lookup_add_count,
    quantity_merge_counts.
  case_decide as Hb; [|done].
  subst. unfold quantity. destruct (c0 !! atom); simpl; f_equal; lia.
Qed.

Lemma add_group_merge c0 counts inner m :
  add_group (merge_counts c0 counts) inner m
  = merge_counts c0 (add_group counts inner m).
Proof.
  apply map_eq. intros b.
  rewrite lookup_add_group, !lookup_merge_counts, lookup_add_group,
    quantity_merge_counts.
  destruct (inner !! b) as [q|]; [|done].
  unfold quantity. destruct (c0 !! b); simpl; f_equal; lia.
Qed.

Lemma body_merge parse s c0 counts i c :
  body parse s (merge_counts c0 counts) i c
  = result_map (flow_merge c0) (body parse s counts i c).
Proof.
  unfold body. destruct (isalpha c).
  { destruct (number s _ _); simpl; [|done..]. by rewrite add_count_merge. }
  destruct (Ascii.eqb c "(").
  { destruct (parse (i + 1)) as [[d|d j]|e|]; simpl; [by case_decide| |done..].
    destruct (number s _ _); simpl; [|done..]. by rewrite add_group_merge. }
  by destruct (Ascii.eqb c ")").
Qed.

(** The loop adds to the dictionary it is entered with, and looks at
    nothing in it. *)
Lemma parse_loop_merge fuel s c0 : ∀ counts i,
  parse_loop fuel s (merge_counts c0 counts) i
  = result_map (merge_into c0) (parse_loop fuel s counts i).
Proof.
  induction fuel as [|fuel IH]; intros counts i; simpl; [done|].
  destruct (s !! i) as [c|]; [|done].
  rewrite body_merge.
  destruct (body _ s counts i c) as [[counts' i'|v]| |]; simpl; [apply IH|done..].
Qed.

Lemma scan_lt p s i : i < length s → scan p s i < length s.
Proof.
  intros Hi. destruct (decide (scan p s i = i)) as [->|Hne]; [done|].
  pose proof (scan_le p s i).
  destruct (scan_inside p s i (scan p s i)) as (c & Hc & _); [lia|].
  by apply lookup_lt_Some in Hc.
Qed.

Lemma scan_app_boundary p s1 s2 i :
  i < length s1 →
  (∀ c, head s2 = Some c → p c = false) →
  scan p (s1 ++ s2) i = scan p s1 i.
Proof.
  intros Hi Hhead. pose proof (scan_lt p s1 i Hi).
  apply scan_unique; [apply scan_le| |].
  - intros k Hk. destruct (scan_inside p s1 i k Hk) as (c & Hc & Hp).
    exists c. split; [|done]. by apply lookup_app_l_Some.
  - intros c Hc. destruct (decide (scan p s1 i + 1 < length s1)).
    + rewrite lookup_app_l in Hc by done. by eapply scan_exit.
    + rewrite lookup_app_r in Hc by lia. apply Hhead.
      rewrite head_lookup, <-Hc. f_equal. lia.
Qed.

Lemma slice_app_l s1 s2 a b :
  b ≤ length s1 → slice (s1 ++ s2) a b = slice s1 a b.
Proof.
  intros Hb. unfold slice. destruct (decide (a ≤ length s1)).
  - rewrite drop_app_le by done. apply take_app_le. rewrite length_drop. lia.
  - by replace (b - a) with 0 by lia.
Qed.

Lemma number_app_l s1 s2 a j :
  j < length s1 → number (s1 ++ s2) a j = number s1 a j.
Proof. intros Hj. unfold number. by rewrite slice_app_l by lia. Qed.

Lemma boundary_head s c :
  boundary s = true → head s = Some c → islower c = false ∧ isdigit c = false.
Proof.
  destruct s as [|d s]; [done|]. simpl.
  intros [?%negb_true_iff ?%negb_true_iff]%andb_prop [= <-]. done.
Qed.

Lemma body_prefix parse1 parse2 s1 s2 counts i c r :
  boundary s2 = true → i < length s1 →
  (∀ d j, parse1 (i + 1) = Return (Tuple d j) →
          j < length s1 ∧ parse2 (i + 1) = Return (Tuple d j)) →
  body parse1 s1 counts i c = Return r →
  body parse2 (s1 ++ s2) counts i c = Return r ∧
  match r with Continue _ i' => i' ≤ length s1 | Stop _ => True end.
Proof.
  intros Hb Hi Hparse. unfold body.
  assert (∀ c, head s2 = Some c → islower c = false) as Hlow
    by (intros d Hd; by destruct (boundary_head s2 d Hb Hd)).
  assert (∀ c, head s2 = Some c → isdigit c = false) as Hdig
    by (intros d Hd; by destruct (boundary_head s2 d Hb Hd)).
  destruct (isalpha c).
  { pose proof (scan_lt islower s1 i Hi) as H1.
    pose proof (scan_lt isdigit s1 _ H1) as H2.
    rewrite scan_app_boundary by done.
    rewrite scan_app_boundary by done.
    rewrite slice_app_l, number_app_l by lia.
    intros (count & -> & [= <-])%bind_Return. simpl. split; [done|lia]. }
  destruct (Ascii.eqb c "(").
  { intros (v & Hv & ([inner j] & Hu & (m & Hm & [= <-])%bind_Return)%bind_Return)%bind_Return.
    destruct v as [d|d j']; simpl in Hu; [by case_decide|].
    injection Hu as -> ->. apply Hparse in Hv as [Hj ->]. simpl.
    pose proof (scan_lt isdigit s1 j Hj) as H2.
    rewrite scan_app_boundary, number_app_l by done.
    rewrite Hm. simpl. split; [done|lia]. }
  destruct (Ascii.eqb c ")"); intros [= <-]; (split; [done|]); [done|lia].
Qed.

(** A run of the loop that ends inside [s1] ends the same when more
    text follows [s1]; a run that reaches the end of [s1] goes on from
    there. *)
Lemma parse_loop_prefix fuel s1 s2 :
  boundary s2 = true → ∀ counts i, i ≤ length s1 →
  match parse_loop fuel s1 counts i with
  | Return (Dict d) =>
      parse_from (s1 ++ s2) counts i = parse_from (s1 ++ s2) d (length s1)
  | Return (Tuple d j) => parse_from (s1 ++ s2) counts i = Return (Tuple d j)
  | _ => True
  end.
Proof.
  intros Hb. induction fuel as [|fuel IH]; intros counts i Hi; simpl; [done|].
  destruct (s1 !! i) as [c|] eqn:Hc.
  2:{ apply lookup_ge_None in Hc. by replace i with (length s1) by lia. }
  pose proof (lookup_lt_Some _ _ _ Hc) as Hlt.
  destruct (body (parse_loop fuel s1 ∅) s1 counts i c) as [r| |] eqn:Hr;
    simpl; [|done..].
  pose proof (body_cursor _ _ _ _ _ _
    (λ d j H, proj1 (parse_loop_tuple _ _ _ _ _ _ H)) Hr) as Hshape.
  apply (body_prefix _ (parse (s1 ++ s2)) s1 s2) in Hr as [Hr Hi']; [|done..|].
  2:{ intros d j Hj. pose proof (parse_loop_tuple _ _ _ _ _ _ Hj) as [_ Hj'].
      apply lookup_lt_Some in Hj'. split; [done|].
      specialize (IH ∅ (i + 1) ltac:(lia)). by rewrite Hj in IH. }
  rewrite (parse_from_unfold (s1 ++ s2) counts i).
  rewrite lookup_app_l, Hc, Hr by done. simpl.
  destruct r as [counts' i'|v]; [by apply IH|].
  by destruct Hshape as [-> _].
Qed.

Lemma result_map_compose {A B C} (f : A → B) (g : B → C) (r : result A) :
  result_map g (result_map f r) = result_map (g ∘ f) r.
Proof. by destruct r. Qed.

Lemma merge_counts_empty_r d : merge_counts d ∅ = d.
Proof.
  apply map_eq. intros b. rewrite lookup_merge_counts, lookup_empty.
  by destruct (d !! b).
Qed.

Lemma merge_counts_comm c d : merge_counts c d = merge_counts d c.
Proof.
  apply map_eq. intros b. rewrite !lookup_merge_counts.
  destruct (c !! b), (d !! b); try done. f_equal. lia.
Qed.

Lemma parse_suffix s i :
  parse s i = result_map (shift i) (parse (drop i s) 0).
Proof.
  destruct (decide (i ≤ length s)) as [Hi|Hi].
  - rewrite <-(take_drop i s) at 1. unfold parse.
    pose proof (parse_from_shift (take i s) (drop i s) ∅ 0) as H.
    rewrite length_take in H. replace (i `min` length s + 0) with i in H by lia.
    rewrite H. by replace (i `min` length s) with i by lia.
  - unfold parse. rewrite drop_ge by lia.
    rewrite (parse_from_unfold s), (parse_from_unfold []).
    by rewrite (proj2 (lookup_ge_None _ _)) by lia.
Qed.

Lemma parse_from_merge s counts i :
  parse_from s counts i = result_map (merge_into counts) (parse s i).
Proof.
  unfold parse, parse_from. rewrite <-parse_loop_merge.
  by rewrite merge_counts_empty_r.
Qed.

Lemma parse_app s1 s2 d1 :
  parse s1 0 = Return (Dict d1) → boundary s2 = true →
  parse (s1 ++ s2) 0
  = result_map (λ v, shift (length s1) (merge_into d1 v)) (parse s2 0).
Proof.
  intros H1 Hb.
  pose proof (parse_loop_prefix (S (length s1)) s1 s2 Hb ∅ 0 ltac:(lia)) as H.
  fold (parse_from s1 ∅ 0) in H. fold (parse s1 0) in H. rewrite H1 in H.
  unfold parse at 1. rewrite H.
  pose proof (parse_from_shift s1 s2 d1 0) as Hs.
  rewrite Nat.add_0_r in Hs. rewrite Hs, parse_from_merge.
  by rewrite result_map_compose.
Qed.

Lemma list_ascii_of_string_app a b :
  list_ascii_of_string (a ++ b)
  = list_ascii_of_string a ++ list_ascii_of_string b.
Proof. induction a as [|c a IH]; simpl; [done|]. by rewrite IH. Qed.

(** X4. Two formulas that are each parsed into a dictionary, neither
    beginning with a lowercase letter or a digit, give the same counts
    and the same printed lines written one behind the other in either
    order: the counts of the two, added up. *)
Theorem count_of_atoms_app_comm a b da db out :
  atom_counts a = Return (Dict da) → atom_counts b = Return (Dict db) →
  boundary (list_ascii_of_string a) = true →
  boundary (list_ascii_of_string b) = true →
  atom_counts (a ++ b) = Return (Dict (merge_counts da db)) ∧
  count_of_atoms (b ++ a) out = count_of_atoms (a ++ b) out.
Proof.
  unfold atom_counts. intros Ha Hb Hba Hbb.
  assert (∀ x y dx dy,
    parse (list_ascii_of_string x) 0 = Return (Dict dx) →
    parse (list_ascii_of_string y) 0 = Return (Dict dy) →
    boundary (list_ascii_of_string y) = true →
    parse (list_ascii_of_string (x ++ y)) 0 = Return (Dict (merge_counts dx dy)))
    as Happ.
  { intros x y dx dy Hx Hy Hby.
    by rewrite list_ascii_of_string_app, (parse_app _ _ dx Hx Hby), Hy. }
  split; [by apply Happ|].
  unfold count_of_atoms.
  rewrite (Happ a b da db), (Happ b a db da) by done.
  by rewrite (merge_counts_comm db da).
Qed.

Lemma count_of_atoms_app_comm_witness :
  atom_counts "H2O" = Return (Dict {[ "H" := 2; "O" := 1 ]}%N) ∧
  atom_counts "NaCl" = Return (Dict {[ "Na" := 1; "Cl" := 1 ]}%N) ∧
  boundary (list_ascii_of_string "H2O") = true ∧
  boundary (list_ascii_of_string "NaCl") = true ∧
  atom_counts ("H2O" ++ "NaCl")
  = Return (Dict (merge_counts {[ "H" := 2; "O" := 1 ]}%N
                               {[ "Na" := 1; "Cl" := 1 ]}%N)) ∧
  count_of_atoms ("NaCl" ++ "H2O") [] = count_of_atoms ("H2O" ++ "NaCl") [].
Proof.
  split; [reflexivity|]. split; [reflexivity|].
  split; [reflexivity|]. split; [reflexivity|].
  apply (count_of_atoms_app_comm "H2O" "NaCl"); reflexivity.
Defined.

Lemma add_group_empty inner m :
  add_group ∅ inner m = (λ q, q * m)%N <$> inner.
Proof.
  apply map_eq. intros b. rewrite lookup_add_group, lookup_fmap.
  destruct (inner !! b); simpl; [|by rewrite lookup_empty].
  unfold quantity. by rewrite lookup_empty.
Qed.

Lemma parse_until_close t rest dt :
  parse t 0 = Return (Dict dt) →
  parse (t ++ ")"%char :: rest) 0 = Return (Tuple dt (length t)).
Proof.
  intros Ht.
  pose proof (parse_loop_prefix (S (length t)) t (")"%char :: rest) eq_refl ∅ 0
                ltac:(lia)) as H.
  fold (parse_from t ∅ 0) in H. fold (parse t 0) in H. rewrite Ht in H.
  unfold parse at 1. rewrite H, parse_from_unfold.
  rewrite lookup_app_r, Nat.sub_diag by lia. done.
Qed.

(** X5. A text that is parsed into a dictionary, written in
    parentheses with a decimal count behind (or none), is parsed into
    the same keys with every count multiplied by that count (by 1
    without one). *)
Theorem parse_group t count dt :
  parse t 0 = Return (Dict dt) → forallb digit count = true →
  parse ("("%char :: t ++ ")"%char :: count) 0
  = Return (Dict ((λ q, q * multiplier_of count)%N <$> dt)).
Proof.
  intros Ht Hcount. set (s := "("%char :: t ++ ")"%char :: count).
  unfold parse. rewrite parse_from_unfold. simpl (s !! 0). unfold body. simpl.
  pose proof (parse_suffix s 1) as Hin. simpl in Hin. rewrite drop_0 in Hin.
  rewrite (parse_until_close t count dt Ht) in Hin. simpl in Hin.
  rewrite Hin. simpl.
  destruct (number_text ("("%char :: t ++ [")"%char]) count [] (S (length t)))
    as [Hscan Hnum]; [by rewrite length_cons, length_app, Nat.add_1_r|done..|].
  assert (("("%char :: t ++ [")"%char]) ++ count ++ [] = s) as Hs.
  { unfold s. rewrite app_nil_r. simpl. by rewrite <-app_assoc. }
  rewrite Hs in Hscan, Hnum. rewrite Hscan.
  change (S (length t + 1)) with (S (length t) + 1). rewrite Hnum. simpl.
  rewrite parse_from_unfold, (proj2 (lookup_ge_None _ _)).
  - by rewrite add_group_empty.
  - unfold s. rewrite length_cons, length_app, length_cons. lia.
Qed.

Lemma parse_group_witness :
  parse (list_ascii_of_string "OH") 0
  = Return (Dict {[ "O" := 1; "H" := 1 ]}%N) ∧
  forallb digit (list_ascii_of_string "2") = true ∧
  parse ("("%char :: list_ascii_of_string "OH"
           ++ ")"%char :: list_ascii_of_string "2") 0
  = Return (Dict ((λ q, q * multiplier_of (list_ascii_of_string "2"))%N
                    <$> {[ "O" := 1; "H" := 1 ]}%N)).
Proof.
  split; [reflexivity|]. split; [reflexivity|].
  apply (parse_group (list_ascii_of_string "OH") (list_ascii_of_string "2"));
    reflexivity.
Defined.

(** X6. An opening parenthesis that is never closed, behind a text
    that is parsed into a dictionary: when what follows the parenthesis
    is parsed into a dictionary with exactly two keys the failure is a
    [TypeError], otherwise a [ValueError]. *)
Theorem parse_unclosed s1 t d1 dt :
  parse s1 0 = Return (Dict d1) → parse t 0 = Return (Dict dt) →
  parse (s1 ++ "("%char :: t) 0
  = Raise (if decide (size dt = 2) then TypeError else ValueError).
Proof.
  intros H1 Ht. rewrite (parse_app _ _ d1 H1) by done.
  unfold parse at 1. rewrite parse_from_unfold. simpl. unfold body. simpl.
  pose proof (parse_suffix ("("%char :: t) 1) as Hin. simpl in Hin.
  rewrite drop_0, Ht in Hin. rewrite Hin. simpl. by case_decide.
Qed.

Lemma parse_unclosed_witness :
  parse (list_ascii_of_string "K4") 0 = Return (Dict {[ "K" := 4%N ]}) ∧
  parse (list_ascii_of_string "ON") 0
  = Return (Dict {[ "O" := 1; "N" := 1 ]}%N) ∧
  parse (list_ascii_of_string "K4" ++ "("%char :: list_ascii_of_string "ON") 0
  = Raise (if decide (size ({[ "O" := 1; "N" := 1 ]}%N : gmap string N) = 2)
           then TypeError else ValueError).
Proof.
  split; [reflexivity|]. split; [reflexivity|].
  apply (parse_unclosed (list_ascii_of_string "K4") (list_ascii_of_string "ON")
           {[ "K" := 4%N ]}); reflexivity.
Defined.

Lemma isdigit_not_lower c : isdigit c = true → islower c = false.
Proof. by destruct c as [[] [] [] [] [] [] [] []]. Qed.

Lemma add_count_empty atom n : add_count ∅ atom n = {[ atom := n ]}.
Proof.
  unfold add_count. rewrite lookup_empty. simpl.
  by rewrite N.add_0_l, insert_empty.
Qed.

(** X7. Any letter, the lowercase letters behind it and the digit
    characters behind those are read as one atom and its count: the
    count is [int] of the digits (so [ValueError] for a superscript
    digit), 1 without digits; what follows, if it does not begin with a
    lowercase letter or a digit, is parsed as if it stood alone and the
    atom is added to its counts. *)
Theorem parse_atom c lows digits rest :
  isalpha c = true → forallb islower lows = true →
  forallb isdigit digits = true → boundary rest = true →
  parse (c :: lows ++ digits ++ rest) 0
  = count ← count_of digits;
    result_map
      (λ v, shift (length (c :: lows ++ digits))
              (merge_into {[ string_of_list_ascii (c :: lows) := count ]} v))
      (parse rest 0).
Proof.
  intros Hc Hlows Hdigits Hrest.
  assert (∀ d, head rest = Some d → islower d = false ∧ isdigit d = false)
    as Hhead by (intros d; by apply boundary_head).
  set (s := c :: lows ++ digits ++ rest).
  unfold parse at 1. rewrite parse_from_unfold. simpl (s !! 0).
  unfold body. rewrite Hc.
  assert (scan islower s 0 = 0 + length lows) as ->.
  { apply (scan_span islower [c] lows (digits ++ rest) 0); [done| |].
    - apply Forall_forall. intros d Hd%list_elem_of_In.
      rewrite forallb_forall in Hlows. by apply Hlows.
    - destruct digits as [|d digits]; simpl.
      + intros d Hd. by apply Hhead.
      + intros ? [= <-]. cbn [forallb] in Hdigits.
        apply andb_prop in Hdigits as [Hd _]. by apply isdigit_not_lower. }
  assert (s = (c :: lows) ++ digits ++ rest) as Hs by done.
  assert (scan isdigit s (0 + length lows) = 0 + length lows + length digits)
    as ->.
  { rewrite Hs. apply scan_span; [done| |].
    - apply Forall_forall. intros d Hd%list_elem_of_In.
      rewrite forallb_forall in Hdigits. by apply Hdigits.
    - intros d Hd. by apply Hhead. }
  assert (slice s 0 (0 + length lows + 1) = c :: lows) as ->.
  { pose proof (slice_app [] (c :: lows) (digits ++ rest)) as H.
    simpl in H. by replace (0 + length lows + 1) with (S (length lows)) by lia. }
  assert (number s (0 + length lows + 1) (0 + length lows + length digits)
          = count_of digits) as ->.
  { unfold number, count_of. destruct digits as [|d digits].
    - by rewrite (proj2 (Nat.leb_gt _ _)) by (simpl; lia).
    - rewrite (proj2 (Nat.leb_le _ _)) by (simpl; lia).
      pose proof (slice_app (c :: lows) (d :: digits) rest) as H.
      rewrite <-Hs in H.
      replace (0 + length lows + 1) with (length (c :: lows)) by (simpl; lia).
      replace (0 + length lows + length (d :: digits) + 1)
        with (length (c :: lows) + length (d :: digits)) by (simpl; lia).
      by rewrite H. }
  destruct (count_of digits) as [count| |]; simpl; [|done..].
  pose proof (parse_from_shift (c :: lows ++ digits) rest
                (add_count ∅ (string_of_list_ascii (c :: lows)) count) 0) as H.
  replace ((c :: lows ++ digits) ++ rest) with s in H
    by (unfold s; simpl; by rewrite <-app_assoc).
  rewrite (parse_from_merge rest), result_map_compose, add_count_empty in H.
  etrans; [|exact H]. f_equal. simpl. rewrite length_app. lia.
Qed.

Lemma parse_atom_witness :
  isalpha "N" = true ∧
  forallb islower (list_ascii_of_string "a") = true ∧
  forallb isdigit (list_ascii_of_string "2") = true ∧
  boundary (list_ascii_of_string "Cl") = true ∧
  parse ("N"%char :: list_ascii_of_string "a" ++ list_ascii_of_string "2"
           ++ list_ascii_of_string "Cl") 0
  = count ← count_of (list_ascii_of_string "2");
    result_map
      (λ v, shift (length ("N"%char :: list_ascii_of_string "a"
                             ++ list_ascii_of_string "2"))
              (merge_into
                 {[ string_of_list_ascii ("N"%char :: list_ascii_of_string "a")
                    := count ]} v))
      (parse (list_ascii_of_string "Cl") 0).
Proof.
  split; [reflexivity|]. split; [reflexivity|].
  split; [reflexivity|]. split; [reflexivity|].
  apply (parse_atom "N" (list_ascii_of_string "a") (list_ascii_of_string "2")
           (list_ascii_of_string "Cl")); reflexivity.
Defined.

Lemma string_compare_trans c : ∀ s1 s2 s3,
  String.compare s1 s2 = c → String.compare s2 s3 = c →
  String.compare s1 s3 = c.
Proof.
  induction s1 as [|a1 s1 IH]; intros [|a2 s2] [|a3 s3]; simpl; try congruence.
  unfold Ascii.compare.
  destruct (N.compare_spec (N_of_ascii a1) (N_of_ascii a2)),
           (N.compare_spec (N_of_ascii a2) (N_of_ascii a3)),
           (N.compare_spec (N_of_ascii a1) (N_of_ascii a3));
    try (exfalso; lia); try congruence.
  apply IH.
Qed.

Lemma string_compare_eq s1 s2 : String.compare s1 s2 = Eq → s1 = s2.
Proof. apply String.compare_eq_iff. Qed.

#[local] Instance item_le_trans : Transitive item_le.
Proof.
  intros [x ?] [y ?] [z ?]. unfold item_le, String.leb. simpl.
  destruct (String.compare x y) eqn:Hxy; [|  |done];
    destruct (String.compare y z) eqn:Hyz; try done; intros _ _.
  - by rewrite (string_compare_trans Eq x y z).
  - apply string_compare_eq in Hxy as ->. by rewrite Hyz.
  - apply string_compare_eq in Hyz as ->. by rewrite Hxy.
  - by rewrite (string_compare_trans Lt x y z).
Qed.

#[local] Instance item_le_total : Total item_le.
Proof. intros [x ?] [y ?]. apply String.leb_total. Qed.

Lemma sorted_items_strict (d : gmap string N) :
  StronglySorted item_lt (sorted_items d).
Proof.
  unfold sorted_items.
  pose proof (StronglySorted_merge_sort item_le (map_to_list d)) as Hsorted.
  assert (NoDup (merge_sort item_le (map_to_list d)).*1) as Hnodup.
  { rewrite merge_sort_Permutation. apply NoDup_fst_map_to_list. }
  induction Hsorted as [|x l _ IH Hx]; [constructor|].
  rewrite fmap_cons in Hnodup. apply NoDup_cons in Hnodup as [Hnotin Hnodup].
  constructor; [by apply IH|].
  rewrite Forall_forall in Hx. apply Forall_forall. intros y Hy.
  specialize (Hx y Hy). unfold item_le, String.leb in Hx. unfold item_lt, ltb.
  destruct (String.compare x.1 y.1) eqn:Hc; [|done..].
  apply string_compare_eq in Hc. destruct Hnotin.
  rewrite Hc. apply list_elem_of_fmap. by exists y.
Qed.

(** X9. When the formula is parsed into a dictionary, [count_of_atoms]
    prints one line for each key, in strictly ascending order of the
    keys by code points. *)
Theorem printed_lines_sorted formula out d :
  atom_counts formula = Return (Dict d) →
  ∃ items,
    count_of_atoms formula out = (Return tt, out ++ (line <$> items)) ∧
    items ≡ₚ map_to_list d ∧ length items = size d ∧
    StronglySorted item_lt items.
Proof.
  intros Hd. exists (sorted_items d).
  split; [by apply count_of_atoms_Dict|].
  assert (sorted_items d ≡ₚ map_to_list d) as Hperm
    by apply merge_sort_Permutation.
  split; [done|]. split; [|apply sorted_items_strict].
  by rewrite Hperm, length_map_to_list.
Qed.

Lemma printed_lines_sorted_witness :
  atom_counts "NaCl" = Return (Dict {[ "Na" := 1; "Cl" := 1 ]}%N) ∧
  ∃ items,
    count_of_atoms "NaCl" [] = (Return tt, [] ++ (line <$> items)) ∧
    items ≡ₚ map_to_list ({[ "Na" := 1; "Cl" := 1 ]}%N : gmap string N) ∧
    length items = size ({[ "Na" := 1; "Cl" := 1 ]}%N : gmap string N) ∧
    StronglySorted item_lt items.
Proof.
  split; [reflexivity|].
  apply (printed_lines_sorted "NaCl" []). reflexivity.
Defined.

Lemma slice_symbol s i c :
  s !! i = Some c → isalpha c = true →
  symbol_shaped (string_of_list_ascii (slice s i (scan islower s i + 1))) = true.
Proof.
  intros Hc Ha. unfold symbol_shaped, slice.
  rewrite list_ascii_of_string_of_list_ascii, (drop_S _ _ _ Hc).
  pose proof (scan_le islower s i).
  replace (scan islower s i + 1 - i) with (S (scan islower s i - i)) by lia.
  simpl. rewrite Ha. simpl.
  apply forallb_forall.
  intros x [m [Hx Hm]%lookup_take_Some]%list_elem_of_In%list_elem_of_lookup.
  rewrite lookup_drop in Hx.
  destruct (scan_inside islower s i (S i + m)) as (y & Hy & Hp); [lia|].
  congruence.
Qed.

Lemma parse_loop_keys fuel s : ∀ counts i v,
  (∀ atom, atom ∈ dom counts → symbol_shaped atom = true) →
  parse_loop fuel s counts i = Return v →
  ∀ atom, atom ∈ dom (dict v) → symbol_shaped atom = true.
Proof.
  induction fuel as [|fuel IH]; intros counts i v Hinv; simpl; [done|].
  destruct (s !! i) as [c|] eqn:Hc; [|by intros [= <-]].
  intros (r & Hr & Hk)%bind_Return. revert Hr. unfold body.
  destruct (isalpha c) eqn:Ha.
  { intros (count & _ & [= <-])%bind_Return.
    eapply IH; [|exact Hk]. intros atom.
    rewrite dom_add_count, elem_of_union, elem_of_singleton.
    intros [->|?]; [by eapply slice_symbol|by apply Hinv]. }
  destruct (Ascii.eqb c "(").
  { intros (v' & Hv' & ([inner j] & Hu & (m & _ & [= <-])%bind_Return)%bind_Return)%bind_Return.
    destruct v' as [d|d j']; simpl in Hu; [by case_decide|].
    injection Hu as -> ->.
    eapply IH; [|exact Hk]. intros atom.
    rewrite dom_add_group, elem_of_union. intros [Hin|?]; [|by apply Hinv].
    revert Hin. apply (IH ∅ (i + 1) (Tuple inner j)); [|done].
    intros a. by rewrite dom_empty_L, elem_of_empty. }
  destruct (Ascii.eqb c ")"); intros [= <-].
  - injection Hk as <-. done.
  - by eapply IH.
Qed.

(** X10. Whatever the input and the start, every key of a dictionary
    that [parse] returns is a letter followed by lowercase letters. *)
Theorem keys_are_symbols s i v atom :
  parse s i = Return v → atom ∈ dom (dict v) → symbol_shaped atom = true.
Proof.
  unfold parse, parse_from. intros Hv. eapply parse_loop_keys; [|done].
  intros a. by rewrite dom_empty_L, elem_of_empty.
Qed.

Lemma keys_are_symbols_witness :
  parse (list_ascii_of_string "K4(ON(SO3)2)2") 0
  = Return (Dict {[ "K" := 4; "O" := 14; "N" := 2; "S" := 4 ]}%N) ∧
  "K" ∈ dom (dict (Dict {[ "K" := 4; "O" := 14; "N" := 2; "S" := 4 ]}%N)) ∧
  symbol_shaped "K" = true.
Proof.
  assert ("K" ∈ dom (dict (Dict {[ "K" := 4; "O" := 14; "N" := 2; "S" := 4 ]}%N)))
    as Hkey by (apply (bool_decide_unpack _); vm_compute; exact I).
  split; [reflexivity|]. split; [exact Hkey|].
  apply (keys_are_symbols (list_ascii_of_string "K4(ON(SO3)2)2") 0
           (Dict {[ "K" := 4; "O" := 14; "N" := 2; "S" := 4 ]}%N) "K");
    [reflexivity|exact Hkey].
Defined.

Lemma dom_tally_symbols f : ∀ counts,
  dom (tally f counts) = symbols f ∪ dom counts.
Proof.
  induction f as [|symbol count rest IH|inner IHinner count rest IH];
    intros counts; simpl.
  - by rewrite (left_id_L ∅ (∪)).
  - rewrite IH, dom_add_count.
    by rewrite (assoc_L (∪)), (comm_L (∪) (symbols rest)).
  - rewrite IH, dom_add_group, IHinner, dom_empty_L, (right_id_L ∅ (∪)).
    by rewrite (assoc_L (∪)), (comm_L (∪) (symbols rest)).
Qed.

(** X11. For a valid formula the keys of the dictionary are exactly
    the element symbols written in it, those under a zero count
    included. *)
Theorem keys_of_formula f :
  valid f = true →
  ∃ d, atom_counts (string_of_list_ascii (text f)) = Return (Dict d) ∧
       dom d = symbols f.
Proof.
  intros Hvalid. exists (tally f ∅). unfold atom_counts.
  rewrite list_ascii_of_string_of_list_ascii. split; [by apply parse_text|].
  by rewrite dom_tally_symbols, dom_empty_L, (right_id_L ∅ (∪)).
Qed.

Lemma keys_of_formula_witness :
  valid K4_ON_SO3_2_2 = true ∧
  ∃ d, atom_counts (string_of_list_ascii (text K4_ON_SO3_2_2))
       = Return (Dict d) ∧
       dom d = symbols K4_ON_SO3_2_2.
Proof.
  split; [reflexivity|].
  apply (keys_of_formula K4_ON_SO3_2_2). reflexivity.
Defined.

(** X8. A character that is no letter, no digit and no parenthesis and
    for which [islower] is false (a character can be lowercase without
    being a letter, and the scan behind a letter takes it into the
    symbol), written between a text that is parsed into a dictionary
    and a rest that does not begin with a lowercase letter or a digit,
    changes nothing but the positions behind it. *)
Theorem parse_separator s1 sep rest d1 :
  parse s1 0 = Return (Dict d1) →
  passed_over sep = true → islower sep = false → isdigit sep = false →
  boundary rest = true →
  parse (s1 ++ sep :: rest) 0 = result_map (shift 1) (parse (s1 ++ rest) 0).
Proof.
  intros H1 Hsep Hlower Hdigit Hrest.
  rewrite (parse_app _ _ d1 H1) by (simpl; by rewrite Hlower, Hdigit).
  rewrite (parse_app _ _ d1 H1) by done.
  assert (parse (sep :: rest) 0 = result_map (shift 1) (parse rest 0)) as ->.
  { pose proof (parse_suffix (sep :: rest) 1) as Hs. simpl in Hs.
    rewrite drop_0 in Hs. rewrite <-Hs.
    unfold parse. rewrite parse_from_unfold. simpl. unfold body.
    apply andb_prop in Hsep as [Ha%negb_true_iff Hp%negb_true_iff].
    apply paren_false in Hp as [-> ->]. by rewrite Ha. }
  rewrite !result_map_compose.
  destruct (parse rest 0) as [[d|d j]| |]; simpl; try done.
  do 2 f_equal. lia.
Qed.

Lemma parse_separator_witness :
  parse (list_ascii_of_string "H2") 0 = Return (Dict {[ "H" := 2%N ]}) ∧
  passed_over " " = true ∧ islower " " = false ∧ isdigit " " = false ∧
  boundary (list_ascii_of_string "O") = true ∧
  parse (list_ascii_of_string "H2" ++ " "%char :: list_ascii_of_string "O") 0
  = result_map (shift 1)
      (parse (list_ascii_of_string "H2" ++ list_ascii_of_string "O") 0).
Proof.
  split; [reflexivity|]. split; [reflexivity|]. split; [reflexivity|].
  split; [reflexivity|]. split; [reflexivity|].
  apply (parse_separator (list_ascii_of_string "H2") " "
           (list_ascii_of_string "O") {[ "H" := 2%N ]}); reflexivity.
Defined.

(** ** Positions and accumulated counts *)

(** X1. What [parse] does from position [i] depends only on the text
    from [i] on: it is what [parse] does from the start of that text,
    with the position of a returned pair counted from [i]. *)
Theorem parse_at_suffix s i :
  parse s i = result_map (shift i) (parse (drop i s) 0).
Proof. apply parse_suffix. Qed.

(** X2. The loop of [parse] only ever adds to the counts it holds: run
    from any dictionary [counts] at position [i], it gives what [parse]
    gives from [i] with [counts] added key by key, and fails as [parse]
    does. *)
Theorem loop_adds_to_counts s counts i :
  parse_from s counts i = result_map (merge_into counts) (parse s i).
Proof. apply parse_from_merge. Qed.

(** X3. A text that is parsed into a dictionary, followed by a text
    that does not begin with a lowercase letter or a digit: the whole
    is parsed as the second text alone, with the counts of the first
    added and positions counted behind the first. *)
Theorem parse_concatenation s1 s2 d1 :
  parse s1 0 = Return (Dict d1) → boundary s2 = true →
  parse (s1 ++ s2) 0
  = result_map (λ v, shift (length s1) (merge_into d1 v)) (parse s2 0).
Proof. apply parse_app. Qed.

Lemma parse_concatenation_witness :
  parse (list_ascii_of_string "H2") 0 = Return (Dict {[ "H" := 2%N ]}) ∧
  boundary (list_ascii_of_string "O)") = true ∧
  parse (list_ascii_of_string "H2" ++ list_ascii_of_string "O)") 0
  = result_map
      (λ v, shift (length (list_ascii_of_string "H2"))
              (merge_into {[ "H" := 2%N ]} v))
      (parse (list_ascii_of_string "O)") 0).
Proof.
  split; [reflexivity|]. split; [reflexivity|].
  apply (parse_concatenation (list_ascii_of_string "H2")
           (list_ascii_of_string "O)") {[ "H" := 2%N ]}); reflexivity.
Defined.

(** * Good land *)

Lemma obind_Done {A B} (m : outcome A) (f : A → outcome B) b :
  m ≫= f = Done b → ∃ a, m = Done a ∧ f a = Done b.
Proof. destruct m; simpl; intros; eauto; discriminate. Qed.

Lemma cell_Done matrix x y :
  wide_enough matrix → x < length matrix → y < columns matrix →
  ∃ row c, matrix !! x = Some row ∧ row !! y = Some c ∧
           cell matrix x y = Done c.
Proof.
  intros Hwide Hx Hy.
  destruct (lookup_lt_is_Some_2 matrix x Hx) as [row Hrow].
  pose proof (Forall_lookup_1 _ _ _ _ Hwide Hrow) as Hlen. simpl in Hlen.
  destruct (lookup_lt_is_Some_2 row y) as [c Hc]; [lia|].
  exists row, c. unfold cell. by rewrite Hrow, Hc.
Qed.

Lemma cell_not_Exhausted matrix x y : cell matrix x y ≠ Exhausted.
Proof. unfold cell. by destruct (matrix !! x) as [row|]; [destruct (row !! y)|]. Qed.

Lemma obind_not_Exhausted {A B} (m : outcome A) (f : A → outcome B) :
  m ≠ Exhausted → (∀ a, m = Done a → f a ≠ Exhausted) → m ≫= f ≠ Exhausted.
Proof. destruct m; simpl; intros; eauto; discriminate. Qed.

Lemma for_each_not_Exhausted {State} (body : State → nat → outcome State) l : ∀ st,
  (∀ st x, x ∈ l → body st x ≠ Exhausted) →
  for_each body l st ≠ Exhausted.
Proof.
  induction l as [|x l IH]; intros st Hbody; simpl; [done|].
  apply obind_not_Exhausted.
  - apply Hbody. by left.
  - intros st' _. apply IH. intros st'' y Hy. apply Hbody. by right.
Qed.

(** A loop in which one pass raises, whatever the state it is entered
    with, raises. *)
Lemma for_each_IndexError {State} (body : State → nat → outcome State) l x0 : ∀ st,
  (∀ st x, x ∈ l → body st x ≠ Exhausted) →
  x0 ∈ l → (∀ st, body st x0 = IndexError) →
  for_each body l st = IndexError.
Proof.
  induction l as [|x l IH]; intros st Hbody Hx0 Hraise; [by apply elem_of_nil in Hx0|].
  simpl. apply elem_of_cons in Hx0 as [<-|Hx0].
  - by rewrite Hraise.
  - pose proof (Hbody st x ltac:(by left)) as Hx.
    destruct (body st x) as [st'| |]; simpl; [|done..].
    apply IH; [|done..]. intros st'' y Hy. apply Hbody. by right.
Qed.

Lemma scan_row_not_Exhausted matrix x ys : scan_row matrix x ys ≠ Exhausted.
Proof.
  induction ys as [|y ys IH]; simpl; [done|].
  apply obind_not_Exhausted; [apply cell_not_Exhausted|].
  intros c _. by destruct (Ascii.eqb c "0").
Qed.

Lemma scan_block_not_Exhausted matrix xs ys :
  scan_block matrix xs ys ≠ Exhausted.
Proof.
  induction xs as [|x xs IH]; simpl; [done|].
  apply obind_not_Exhausted; [apply scan_row_not_Exhausted|].
  by intros [] _.
Qed.

Lemma grow_square_not_Exhausted matrix rows cols i j fuel : ∀ current_side,
  0 < fuel → rows < fuel + (i + current_side) →
  grow_square fuel matrix rows cols i j current_side ≠ Exhausted.
Proof.
  induction fuel as [|fuel IH]; intros cs Hpos Hfuel; [lia|]. simpl.
  destruct (Nat.ltb_spec (i + cs) rows); simpl; [|done].
  destruct (j + cs <? cols); [|done].
  apply obind_not_Exhausted; [apply scan_block_not_Exhausted|].
  intros [] _; [|done]. apply IH; lia.
Qed.

Lemma square_from_not_Exhausted matrix i max_side j :
  square_from matrix i max_side j ≠ Exhausted.
Proof.
  unfold square_from. apply obind_not_Exhausted; [apply cell_not_Exhausted|].
  intros c _. destruct (Ascii.eqb c "1"); [|done].
  apply obind_not_Exhausted; [|done].
  apply grow_square_not_Exhausted; lia.
Qed.

Lemma short_row matrix :
  ¬ wide_enough matrix →
  ∃ i row, matrix !! i = Some row ∧ length row < columns matrix.
Proof.
  intros [row [[i Hi]%list_elem_of_lookup Hrow]]%not_Forall_Exists%Exists_exists;
    [|intros ?; apply _].
  exists i, row. simpl in Hrow. split; [done|lia].
Qed.

Lemma cell_short matrix i row :
  matrix !! i = Some row → cell matrix i (length row) = IndexError.
Proof.
  intros Hrow. unfold cell. by rewrite Hrow, (proj2 (lookup_ge_None _ _)).
Qed.

Lemma max_square_area_short matrix :
  ¬ wide_enough matrix → max_square_area matrix = IndexError.
Proof.
  intros (i & row & Hrow & Hlen)%short_row. unfold max_square_area.
  rewrite (for_each_IndexError _ _ i); [done| | |].
  - intros st x _. apply for_each_not_Exhausted.
    intros. apply square_from_not_Exhausted.
  - apply elem_of_seq. apply lookup_lt_Some in Hrow. lia.
  - intros st. apply (for_each_IndexError _ _ (length row)).
    + intros. apply square_from_not_Exhausted.
    + apply elem_of_seq. lia.
    + intros st'. unfold square_from. by rewrite (cell_short _ _ _ Hrow).
Qed.

Lemma for_each_seq_inv {State} (body : State → nat → outcome State) (I : nat → State → Prop) len :
  ∀ a st,
  I a st →
  (∀ k st, a ≤ k < a + len → I k st → ∃ st', body st k = Done st' ∧ I (S k) st') →
  ∃ st', for_each body (seq a len) st = Done st' ∧ I (a + len) st'.
Proof.
  induction len as [|len IH]; intros a st Hst Hbody; simpl.
  { exists st. by rewrite Nat.add_0_r. }
  destruct (Hbody a st ltac:(lia) Hst) as (st' & -> & Hst'). simpl.
  destruct (IH (S a) st' Hst') as (st'' & -> & Hst'').
  { intros k st0 Hk. apply Hbody. lia. }
  exists st''. split; [done|]. by replace (a + S len) with (S a + len) by lia.
Qed.

Lemma scan_row_spec matrix x ys :
  wide_enough matrix → x < length matrix →
  (∀ y, y ∈ ys → y < columns matrix) →
  ∃ b, scan_row matrix x ys = Done b ∧
       (b = true ↔ ∀ y, y ∈ ys → cell matrix x y ≠ Done "0"%char).
Proof.
  intros Hwide Hx. induction ys as [|y ys IH]; intros Hys; simpl.
  { exists true. split; [done|]. split; [|done]. intros _ y Hy.
    by apply elem_of_nil in Hy. }
  destruct (cell_Done matrix x y Hwide Hx) as (row & c & _ & _ & Hc).
  { apply Hys. by left. }
  rewrite Hc. simpl. destruct (Ascii.eqb_spec c "0") as [->|Hne].
  - exists false. split; [done|]. split; [done|]. intros H.
    destruct (H y); [by left|done].
  - destruct IH as (b & -> & Hb); [intros; apply Hys; by right|].
    exists b. split; [done|]. rewrite Hb. split.
    + intros H y' [->|Hy']%elem_of_cons; [|by apply H]. rewrite Hc. congruence.
    + intros H y' Hy'. apply H. by right.
Qed.

Lemma scan_block_spec matrix xs ys :
  wide_enough matrix →
  (∀ x, x ∈ xs → x < length matrix) →
  (∀ y, y ∈ ys → y < columns matrix) →
  ∃ b, scan_block matrix xs ys = Done b ∧
       (b = true ↔
        ∀ x y, x ∈ xs → y ∈ ys → cell matrix x y ≠ Done "0"%char).
Proof.
  intros Hwide Hxs Hys. induction xs as [|x xs IH]; simpl.
  { exists true. split; [done|]. split; [|done]. intros _ x y Hx.
    by apply elem_of_nil in Hx. }
  destruct (scan_row_spec matrix x ys Hwide) as (b & -> & Hb);
    [apply Hxs; by left|done|].
  simpl. destruct b.
  - destruct IH as (b & -> & Hb'); [intros; apply Hxs; by right|].
    exists b. split; [done|]. rewrite Hb'. split.
    + intros H x' y [->|Hx']%elem_of_cons Hy; [by apply Hb|by apply H].
    + intros H x' y Hx' Hy. apply H; [by right|done].
  - exists false. split; [done|]. split; [done|]. intros H.
    enough (false = true) by done. apply Hb. intros y Hy. apply H; [by left|done].
Qed.

(** The side a square is grown to is a side of a zero-free square
    inside the matrix, and the next larger square is not one. *)
Lemma grow_square_spec matrix i j fuel : ∀ current_side,
  wide_enough matrix →
  0 < fuel → length matrix < fuel + (i + current_side) →
  i + current_side ≤ length matrix → j + current_side ≤ columns matrix →
  zero_free matrix i j current_side →
  ∃ n, grow_square fuel matrix (length matrix) (columns matrix) i j current_side
       = Done n ∧
       current_side ≤ n ∧ i + n ≤ length matrix ∧ j + n ≤ columns matrix ∧
       zero_free matrix i j n ∧
       ¬ (i + n < length matrix ∧ j + n < columns matrix ∧
          zero_free matrix i j (n + 1)).
Proof.
  induction fuel as [|fuel IH]; intros cs Hwide Hpos Hfuel Hi Hj Hfree; [lia|].
  simpl.
  destruct (Nat.ltb_spec (i + cs) (length matrix)) as [Hrows|Hrows]; simpl.
  2:{ exists cs. repeat split; try done. lia. }
  destruct (Nat.ltb_spec (j + cs) (columns matrix)) as [Hcols|Hcols].
  2:{ exists cs. repeat split; try done. lia. }
  destruct (scan_block_spec matrix (seq i (cs + 1)) (seq j (cs + 1)) Hwide)
    as (b & -> & Hb).
  { intros x Hx%elem_of_seq. lia. }
  { intros y Hy%elem_of_seq. lia. }
  assert (b = true ↔ zero_free matrix i j (cs + 1)) as Hb'.
  { rewrite Hb. unfold zero_free. split.
    - intros H x y Hx Hy. apply H; apply elem_of_seq; lia.
    - intros H x y Hx%elem_of_seq Hy%elem_of_seq. apply H; lia. }
  simpl. destruct b.
  - destruct (IH (cs + 1)) as (n & -> & Hn); [done|lia..|by apply Hb'|].
    exists n. split; [done|]. destruct Hn as (? & ? & ? & ? & ?).
    repeat split; try done. lia.
  - exists cs. repeat split; try done.
    intros (_ & _ & H). by apply Hb' in H.
Qed.

#[local] Arguments grow_square : simpl never.

Lemma zero_free_smaller matrix i j n n' :
  n ≤ n' → zero_free matrix i j n' → zero_free matrix i j n.
Proof. intros Hn H x y Hx Hy. apply H; lia. Qed.

(** One pass of the inner loop: the side kept is the old one or that of
    an accepted square at this cell, and no accepted square at this cell
    is larger. *)
Lemma square_from_spec matrix i j max_side :
  wide_enough matrix → i < length matrix → j < columns matrix →
  ∃ side, square_from matrix i max_side j = Done side ∧
          max_side ≤ side ∧
          (side = max_side ∨ good_square matrix i j side) ∧
          (∀ n, good_square matrix i j n → n ≤ side).
Proof.
  intros Hwide Hi Hj. unfold square_from.
  destruct (cell_Done matrix i j Hwide Hi Hj) as (row & c & _ & _ & Hc).
  rewrite Hc. simpl. destruct (Ascii.eqb_spec c "1") as [->|Hne].
  2:{ exists max_side. repeat split; try done; [by left|].
      intros n (_ & _ & _ & H & _). congruence. }
  destruct (grow_square_spec matrix i j (S (length matrix)) 1 Hwide)
    as (n & -> & Hn1 & Hni & Hnj & Hfree & Hstop); [lia..| |].
  { intros x y Hx Hy. replace x with i by lia. replace y with j by lia.
    by rewrite Hc. }
  simpl. exists (max_side `max` n). split; [done|]. split; [lia|]. split.
  - destruct (Nat.max_spec max_side n) as [[_ ->]|[_ ->]]; [|by left].
    right. repeat split; try done; lia.
  - intros n' (_ & Hi' & Hj' & _ & Hfree').
    destruct (decide (n' ≤ n)); [lia|]. destruct Hstop.
    repeat split; [lia..|]. apply (zero_free_smaller _ _ _ _ n'); [lia|done].
Qed.

Lemma max_side_spec matrix :
  wide_enough matrix →
  ∃ side,
    for_each (λ max_side i,
                for_each (square_from matrix i) (seq 0 (columns matrix)) max_side)
             (seq 0 (length matrix)) 0 = Done side ∧
    largest_so_far matrix (λ _ _, True) side.
Proof.
  intros Hwide.
  destruct (for_each_seq_inv
    (λ max_side i,
       for_each (square_from matrix i) (seq 0 (columns matrix)) max_side)
    (λ k side, largest_so_far matrix (λ i _, i < k) side)
    (length matrix) 0 0) as (side & Hside & Hinv).
  { split; [by left|]. intros i j n Hi. lia. }
  { intros i side Hi Hinv.
    destruct (for_each_seq_inv (square_from matrix i)
      (λ k side, largest_so_far matrix (λ i' j', i' < i ∨ (i' = i ∧ j' < k)) side)
      (columns matrix) 0 side) as (side' & Hside' & Hinv').
    - destruct Hinv as [? Hmax]. split; [done|].
      intros i' j' n [?|[_ ?]]; [by apply Hmax|lia].
    - intros j side0 Hj [Hgood Hmax].
      destruct (square_from_spec matrix i j side0 Hwide)
        as (side1 & -> & Hle & Hkeep & Hhere); [lia..|].
      exists side1. split; [done|]. split.
      + destruct Hkeep as [->|?]; [done|]. right. eauto.
      + intros i' j' n [Hi'|[-> Hj']] Hn.
        * etrans; [|exact Hle]. apply (Hmax i' j'); [by left|done].
        * destruct (decide (j' = j)) as [->|]; [by apply Hhere|].
          etrans; [|exact Hle]. apply (Hmax i j'); [right; split; [done|lia]|done].
    - exists side'. split; [done|]. destruct Hinv' as [? Hmax]. split; [done|].
      intros i' j' n Hi' Hn. apply (Hmax i' j'); [|done].
      destruct Hn as (? & ? & ? & _). destruct (decide (i' = i)) as [->|]; [|left; lia].
      right. split; [done|]. simpl. lia. }
  exists side. split; [done|]. destruct Hinv as [? Hmax]. split; [done|].
  intros i j n _ Hn. apply (Hmax i j); [|done].
  destruct Hn as (? & ? & _). simpl. lia.
Qed.

Lemma max_square_area_largest matrix :
  wide_enough matrix →
  ∃ side,
    max_square_area matrix = Done (side * side) ∧
    (side = 0 ∨ ∃ i j, good_square matrix i j side) ∧
    (∀ i j n, good_square matrix i j n → n ≤ side).
Proof.
  intros Hwide. destruct (max_side_spec matrix Hwide) as (side & Hside & Hgood & Hmax).
  exists side. unfold max_square_area. rewrite Hside. simpl.
  split; [done|]. split; [done|]. intros i j n. by apply Hmax.
Qed.

Lemma cell_Done_row matrix x y c : cell matrix x y = Done c → x < length matrix.
Proof.
  unfold cell. destruct (matrix !! x) eqn:Hx; [|done].
  intros _. by apply lookup_lt_Some in Hx.
Qed.

Lemma run_right_not_Exhausted matrix cols i j fuel : ∀ width,
  0 < fuel → cols < fuel + (j + width) →
  run_right fuel matrix cols i j width ≠ Exhausted.
Proof.
  induction fuel as [|fuel IH]; intros width Hpos Hfuel; [lia|]. simpl.
  destruct (Nat.ltb_spec (j + width) cols); [|done].
  apply obind_not_Exhausted; [apply cell_not_Exhausted|].
  intros c _. destruct (Ascii.eqb c "1"); [|done]. apply IH; lia.
Qed.

Lemma run_down_not_Exhausted matrix rows i y fuel : ∀ height,
  0 < fuel → rows < fuel + (i + height) →
  run_down fuel matrix rows i y height ≠ Exhausted.
Proof.
  induction fuel as [|fuel IH]; intros height Hpos Hfuel; [lia|]. simpl.
  destruct (Nat.ltb_spec (i + height) rows); [|done].
  apply obind_not_Exhausted; [apply cell_not_Exhausted|].
  intros c _. destruct (Ascii.eqb c "1"); [|done]. apply IH; lia.
Qed.

Lemma run_right_spec matrix i j fuel : ∀ width,
  wide_enough matrix → i < length matrix →
  0 < fuel → columns matrix < fuel + (j + width) →
  j + width ≤ columns matrix → ones_right matrix i j width →
  ∃ w, run_right fuel matrix (columns matrix) i j width = Done w ∧
       width ≤ w ∧ j + w ≤ columns matrix ∧ ones_right matrix i j w ∧
       ¬ (j + w < columns matrix ∧ cell matrix i (j + w) = Done "1"%char).
Proof.
  induction fuel as [|fuel IH]; intros width Hwide Hi Hpos Hfuel Hj Hones; [lia|].
  simpl. destruct (Nat.ltb_spec (j + width) (columns matrix)) as [Hlt|Hge].
  2:{ exists width. repeat split; try done. lia. }
  destruct (cell_Done matrix i (j + width) Hwide Hi Hlt) as (row & c & _ & _ & Hc).
  rewrite Hc. simpl. destruct (Ascii.eqb_spec c "1") as [->|Hne].
  - destruct (IH (width + 1)) as (w & -> & Hw); [done..|lia|lia|lia| |].
    { intros y Hy. destruct (decide (y = j + width)) as [->|]; [done|].
      apply Hones. lia. }
    exists w. split; [done|]. destruct Hw as (? & ? & ? & ?).
    repeat split; try done. lia.
  - exists width. repeat split; try done. intros [_ H]. congruence.
Qed.

Lemma run_down_spec matrix i y fuel : ∀ height,
  wide_enough matrix → y < columns matrix →
  0 < fuel → length matrix < fuel + (i + height) →
  i + height ≤ length matrix → ones_down matrix i y height →
  ∃ h, run_down fuel matrix (length matrix) i y height = Done h ∧
       height ≤ h ∧ i + h ≤ length matrix ∧ ones_down matrix i y h ∧
       ¬ (i + h < length matrix ∧ cell matrix (i + h) y = Done "1"%char).
Proof.
  induction fuel as [|fuel IH]; intros height Hwide Hy Hpos Hfuel Hi Hones; [lia|].
  simpl. destruct (Nat.ltb_spec (i + height) (length matrix)) as [Hlt|Hge].
  2:{ exists height. repeat split; try done. lia. }
  destruct (cell_Done matrix (i + height) y Hwide Hlt Hy) as (row & c & _ & _ & Hc).
  rewrite Hc. simpl. destruct (Ascii.eqb_spec c "1") as [->|Hne].
  - destruct (IH (height + 1)) as (h & -> & Hh); [done..|lia|lia|lia| |].
    { intros x Hx. destruct (decide (x = i + height)) as [->|]; [done|].
      apply Hones. lia. }
    exists h. split; [done|]. destruct Hh as (? & ? & ? & ?).
    repeat split; try done. lia.
  - exists height. repeat split; try done. intros [_ H]. congruence.
Qed.

#[local] Arguments run_right : simpl never.

#[local] Arguments run_down : simpl never.

Lemma column_below_spec matrix i y :
  wide_enough matrix → y < columns matrix → i ≤ length matrix →
  ∃ h, run_down (S (length matrix)) matrix (length matrix) i y 0 = Done h ∧
       i + h ≤ length matrix ∧ ones_down matrix i y h ∧
       ∀ h', ones_down matrix i y h' → h' ≤ h.
Proof.
  intros Hwide Hy Hi.
  destruct (run_down_spec matrix i y (S (length matrix)) 0 Hwide Hy)
    as (h & -> & _ & Hh & Hones & Hstop); [lia..| |].
  { intros x Hx. lia. }
  exists h. split; [done|]. split; [done|]. split; [done|]. intros h' Hones'.
  destruct (decide (h' ≤ h)); [done|]. destruct Hstop.
  assert (cell matrix (i + h) y = Done "1"%char) as Hc by (apply Hones'; lia).
  split; [|done]. by apply cell_Done_row in Hc.
Qed.

Lemma rectangle_from_spec matrix i j max_area :
  wide_enough matrix → i < length matrix → j < columns matrix →
  ∃ area,
    rectangle_from matrix i max_area j = Done area ∧
    max_area ≤ area ∧
    area ≤ max_area `max` (length matrix * columns matrix) ∧
    (area = max_area ∨ ∃ w k h, hanging matrix i j w k h ∧ area = w * h) ∧
    (∀ w k h, hanging matrix i j w k h → w * h ≤ area).
Proof.
  intros Hwide Hi Hj. unfold rectangle_from.
  destruct (cell_Done matrix i j Hwide Hi Hj) as (row & c & _ & _ & Hc).
  rewrite Hc. simpl. destruct (Ascii.eqb_spec c "1") as [->|Hne].
  2:{ exists max_area. split; [done|]. split; [done|]. split; [lia|].
      split; [by left|]. intros w k h (Hw & _ & Hones & _).
      specialize (Hones j ltac:(lia)). congruence. }
  destruct (run_right_spec matrix i j (S (columns matrix)) 0 Hwide Hi)
    as (w0 & -> & _ & Hw0 & Hones0 & Hstop); [lia..| |].
  { intros y Hy. lia. }
  simpl.
  destruct (for_each_seq_inv (column_below matrix i j)
    (λ k height, i + height ≤ length matrix ∧
       (height = 0 ∨ ∃ k', k' < k ∧ ones_down matrix i (j + k') height) ∧
       ∀ k' h, k' < k → ones_down matrix i (j + k') h → h ≤ height)
    w0 0 0) as (height & -> & Hheight & Hreached & Hdown).
  { split; [lia|]. split; [by left|]. intros k' h Hk'. lia. }
  { intros k height Hk (Hle & Hreached & Hmax). unfold column_below.
    destruct (column_below_spec matrix i (j + k) Hwide)
      as (h & -> & Hh & Hhones & Hhmax); [lia..|].
    simpl. exists (height `max` h). split; [done|]. split; [lia|]. split.
    - destruct (Nat.max_spec height h) as [[_ ->]|[_ ->]]; [right; eauto|].
      destruct Hreached as [?|(k' & ? & ?)]; [by left|]. right. exists k'.
      split; [lia|done].
    - intros k' h' Hk' Hones'. destruct (decide (k' = k)) as [->|].
      + specialize (Hhmax h' Hones'). lia.
      + specialize (Hmax k' h' ltac:(lia) Hones'). lia. }
  simpl. exists (max_area `max` (w0 * height)).
  split; [done|]. split; [lia|]. split; [|split].
  - assert (w0 * height ≤ length matrix * columns matrix) by nia. lia.
  - destruct Hreached as [->|(k & Hk & Hk')].
    + left. lia.
    + destruct (Nat.max_spec max_area (w0 * height)) as [[_ ->]|[_ ->]];
        [|by left].
      right. exists w0, k, height. split; [|done]. repeat split; try done; lia.
  - intros w k h (Hw & Hjw & Hones & Hk & Hdownk).
    assert (w ≤ w0) as Hww0.
    { destruct (decide (w ≤ w0)); [done|]. destruct Hstop.
      split; [lia|]. apply Hones. lia. }
    assert (h ≤ height) by (apply (Hdown k); [lia|done]).
    assert (w * h ≤ w0 * height) by nia. lia.
Qed.

(** The function returns the largest product of the lengths of such a
    pair of runs. *)
Lemma max_rectangle_area_hanging matrix :
  wide_enough matrix →
  ∃ area,
    max_rectangle_area matrix = Done area ∧
    area ≤ length matrix * columns matrix ∧
    (area = 0 ∨ ∃ i j w k h, hanging matrix i j w k h ∧ area = w * h) ∧
    (∀ i j w k h, hanging matrix i j w k h → w * h ≤ area).
Proof.
  intros Hwide. unfold max_rectangle_area.
  pose (keeps (seen : nat → nat → Prop) (area : nat) :=
    area ≤ length matrix * columns matrix ∧
    (area = 0 ∨ ∃ i j w k h, hanging matrix i j w k h ∧ area = w * h) ∧
    (∀ i j w k h, seen i j → hanging matrix i j w k h → w * h ≤ area)).
  destruct (for_each_seq_inv
    (λ max_area i,
       for_each (rectangle_from matrix i) (seq 0 (columns matrix)) max_area)
    (λ k area, keeps (λ i _, i < k) area)
    (length matrix) 0 0) as (area & Harea & Hle & Hpos & Hmax).
  { split; [lia|]. split; [by left|]. intros i j w k h Hi. lia. }
  { intros i area Hi (Hle & Hpos & Hmax).
    destruct (for_each_seq_inv (rectangle_from matrix i)
      (λ k area, keeps (λ i' j', i' < i ∨ (i' = i ∧ j' < k)) area)
      (columns matrix) 0 area) as (area' & Harea' & Hle' & Hpos' & Hmax').
    - split; [done|]. split; [done|].
      intros i' j' w k h [?|[_ ?]]; [by apply Hmax|lia].
    - intros j area0 Hj (Hle0 & Hpos0 & Hmax0).
      destruct (rectangle_from_spec matrix i j area0 Hwide)
        as (area1 & -> & Hge & Hub & Hkeep & Hhere); [lia..|].
      exists area1. split; [done|]. split; [lia|]. split.
      + destruct Hkeep as [->|(w & k & h & ? & ?)]; [done|]. right.
        by exists i, j, w, k, h.
      + intros i' j' w k h [Hi'|[-> Hj']] Hshape.
        * etrans; [|exact Hge]. by apply (Hmax0 i' j' w k h); [left|].
        * destruct (decide (j' = j)) as [->|]; [by apply (Hhere w k h)|].
          etrans; [|exact Hge].
          apply (Hmax0 i j' w k h); [right; split; [done|lia]|done].
    - exists area'. split; [done|]. split; [done|]. split; [done|].
      intros i' j' w k h Hi' Hshape.
      apply (Hmax' i' j' w k h); [|done].
      destruct (decide (i' = i)) as [->|]; [|left; simpl in Hi'; lia].
      right. split; [done|]. destruct Hshape as (? & ? & _). simpl. lia. }
  exists area. split; [done|]. split; [done|]. split; [done|].
  intros i j w k h Hshape. apply (Hmax i j w k h); [|done].
  destruct Hshape as (Hw & _ & Hones & _).
  assert (cell matrix i j = Done "1"%char) as Hc by (apply Hones; lia).
  apply cell_Done_row in Hc. simpl. lia.
Qed.

Lemma column_below_not_Exhausted matrix i j height k :
  column_below matrix i j height k ≠ Exhausted.
Proof.
  unfold column_below. apply obind_not_Exhausted; [|done].
  apply run_down_not_Exhausted; lia.
Qed.

Lemma rectangle_from_not_Exhausted matrix i max_area j :
  rectangle_from matrix i max_area j ≠ Exhausted.
Proof.
  unfold rectangle_from. apply obind_not_Exhausted; [apply cell_not_Exhausted|].
  intros c _. destruct (Ascii.eqb c "1"); [|done].
  apply obind_not_Exhausted; [apply run_right_not_Exhausted; lia|].
  intros width _. apply obind_not_Exhausted; [|done].
  apply for_each_not_Exhausted. intros. apply column_below_not_Exhausted.
Qed.

Lemma max_rectangle_area_short matrix :
  ¬ wide_enough matrix → max_rectangle_area matrix = IndexError.
Proof.
  intros (i & row & Hrow & Hlen)%short_row. unfold max_rectangle_area.
  apply (for_each_IndexError _ _ i).
  - intros st x _. apply for_each_not_Exhausted.
    intros. apply rectangle_from_not_Exhausted.
  - apply elem_of_seq. apply lookup_lt_Some in Hrow. lia.
  - intros st. apply (for_each_IndexError _ _ (length row)).
    + intros. apply rectangle_from_not_Exhausted.
    + apply elem_of_seq. lia.
    + intros st'. unfold rectangle_from. by rewrite (cell_short _ _ _ Hrow).
Qed.

(** X15. [max_square_area] and [max_rectangle_area] raise [IndexError]
    exactly when some row is shorter than the first row; longer rows
    are accepted.  Their loops always end. *)
Theorem short_row_IndexError matrix :
  (max_square_area matrix = IndexError ↔ ¬ wide_enough matrix) ∧
  (max_rectangle_area matrix = IndexError ↔ ¬ wide_enough matrix) ∧
  max_square_area matrix ≠ Exhausted ∧ max_rectangle_area matrix ≠ Exhausted.
Proof.
  destruct (decide (wide_enough matrix)) as [Hwide|Hwide].
  - destruct (max_square_area_largest matrix Hwide) as (side & -> & _).
    destruct (max_rectangle_area_hanging matrix Hwide) as (area & -> & _).
    repeat split; try done; intros H; by destruct H.
  - rewrite (max_square_area_short matrix Hwide),
      (max_rectangle_area_short matrix Hwide). done.
Qed.

Lemma binary_wide matrix : binary matrix → wide_enough matrix.
Proof.
  unfold binary, wide_enough. intros H. eapply Forall_impl; [exact H|].
  intros row [-> _]. done.
Qed.

Lemma binary_cell matrix x y c :
  binary matrix → cell matrix x y = Done c →
  x < length matrix ∧ y < columns matrix ∧ (c = "0"%char ∨ c = "1"%char).
Proof.
  intros Hbin. unfold cell.
  destruct (matrix !! x) as [row|] eqn:Hrow; [|done].
  destruct (row !! y) as [d|] eqn:Hd; [|done]. intros [= ->].
  pose proof (Forall_lookup_1 _ _ _ _ Hbin Hrow) as [Hlen Hcells].
  split; [by apply lookup_lt_Some in Hrow|]. split.
  - rewrite <-Hlen. by apply lookup_lt_Some in Hd.
  - by apply (Forall_lookup_1 _ _ _ _ Hcells Hd).
Qed.

Lemma binary_good_square matrix i j n :
  binary matrix → 0 < n →
  good_square matrix i j n ↔ ones_square matrix i j n.
Proof.
  intros Hbin Hn. split.
  - intros (_ & Hi & Hj & _ & Hfree) x y Hx Hy.
    destruct (cell_Done matrix x y (binary_wide _ Hbin)) as (_ & c & _ & _ & Hc);
      [lia..|].
    destruct (binary_cell _ _ _ _ Hbin Hc) as (_ & _ & [->| ->]); [|done].
    by destruct (Hfree x y Hx Hy).
  - intros Hones.
    assert (cell matrix (i + n - 1) (j + n - 1) = Done "1"%char) as Hc
      by (apply Hones; lia).
    apply binary_cell in Hc as (? & ? & _); [|done].
    repeat split; [done|lia|lia|apply Hones; lia|].
    intros x y Hx Hy. by rewrite Hones.
Qed.

(** X13. On a matrix whose rows all have the length of the first and
    whose cells hold ['0'] or ['1'], [max_square_area] returns the area
    of the largest square of ['1']: 0 or the square of the side of such
    a square, and no such square has a larger side. *)
Theorem max_square_area_binary matrix :
  binary matrix →
  ∃ side,
    max_square_area matrix = Done (side * side) ∧
    (side = 0 ∨ ∃ i j, ones_square matrix i j side) ∧
    (∀ i j n, ones_square matrix i j n → n ≤ side).
Proof.
  intros Hbin.
  destruct (max_square_area_largest matrix (binary_wide _ Hbin))
    as (side & Hside & Hgood & Hmax).
  exists side. split; [done|]. split.
  - destruct Hgood as [?|(i & j & Hg)]; [by left|]. right. exists i, j.
    apply binary_good_square; [done| |done]. by destruct Hg.
  - intros i j n Hones. destruct (decide (n = 0)) as [->|]; [lia|].
    apply (Hmax i j). apply binary_good_square; [done|lia|done].
Qed.

Lemma max_square_area_binary_witness :
  binary land ∧
  ∃ side,
    max_square_area land = Done (side * side) ∧
    (side = 0 ∨ ∃ i j, ones_square land i j side) ∧
    (∀ i j n, ones_square land i j n → n ≤ side).
Proof.
  assert (binary land) as Hland
    by (apply (bool_decide_unpack _); vm_compute; exact I).
  split; [exact Hland|].
  apply (max_square_area_binary land). exact Hland.
Defined.

(** ** The two functions on matrices with full rows *)

(** X12. When no row is shorter than the first, [max_square_area]
    returns the square of the largest side of a square that lies in
    the matrix, has ['1'] in its upper left corner and ['0'] in none of
    its cells; it returns 0 when there is none. *)
Theorem largest_square matrix :
  wide_enough matrix →
  ∃ side,
    max_square_area matrix = Done (side * side) ∧
    (side = 0 ∨ ∃ i j, good_square matrix i j side) ∧
    (∀ i j n, good_square matrix i j n → n ≤ side).
Proof. apply max_square_area_largest. Qed.

Lemma largest_square_witness :
  wide_enough land ∧
  ∃ side,
    max_square_area land = Done (side * side) ∧
    (side = 0 ∨ ∃ i j, good_square land i j side) ∧
    (∀ i j n, good_square land i j n → n ≤ side).
Proof.
  assert (wide_enough land) as Hland
    by (apply (bool_decide_unpack _); vm_compute; exact I).
  split; [exact Hland|].
  apply (largest_square land). exact Hland.
Defined.

(** X14. When no row is shorter than the first, [max_rectangle_area]
    returns the largest product of the length of a run of ['1'] to the
    right of a cell and the length of a run of ['1'] downwards from a
    cell of that run; it returns 0 when there is no cell with ['1'],
    and never more than the number of cells. *)
Theorem largest_hanging_runs matrix :
  wide_enough matrix →
  ∃ area,
    max_rectangle_area matrix = Done area ∧
    area ≤ length matrix * columns matrix ∧
    (area = 0 ∨ ∃ i j w k h, hanging matrix i j w k h ∧ area = w * h) ∧
    (∀ i j w k h, hanging matrix i j w k h → w * h ≤ area).
Proof. apply max_rectangle_area_hanging. Qed.

Lemma largest_hanging_runs_witness :
  wide_enough land ∧
  ∃ area,
    max_rectangle_area land = Done area ∧
    area ≤ length land * columns land ∧
    (area = 0 ∨ ∃ i j w k h, hanging land i j w k h ∧ area = w * h) ∧
    (∀ i j w k h, hanging land i j w k h → w * h ≤ area).
Proof.
  assert (wide_enough land) as Hland
    by (apply (bool_decide_unpack _); vm_compute; exact I).
  split; [exact Hland|].
  apply (largest_hanging_runs land). exact Hland.
Defined.

Lemma ones_rectangle_hanging matrix i j w h :
  0 < w → 0 < h → j + w ≤ columns matrix →
  ones_rectangle matrix i j w h → hanging matrix i j w 0 h.
Proof.
  intros Hw Hh Hcols Hones. unfold hanging.
  split; [done|]. split; [done|]. split.
  - intros y Hy. apply Hones; lia.
  - split; [done|]. intros x Hx. apply Hones; lia.
Qed.

(** X16. When all rows have the length of the first,
    [max_rectangle_area] never returns less than the area of a
    rectangle whose cells all hold ['1']. *)
Theorem max_rectangle_area_covers matrix i j w h :
  Forall (λ row, length row = columns matrix) matrix →
  ones_rectangle matrix i j w h →
  ∃ area, max_rectangle_area matrix = Done area ∧ w * h ≤ area.
Proof.
  intros Hrows Hones.
  assert (wide_enough matrix) as Hwide.
  { unfold wide_enough. eapply Forall_impl; [exact Hrows|].
    intros row Hrow. simpl in Hrow. lia. }
  destruct (max_rectangle_area_hanging matrix Hwide)
    as (area & Harea & _ & _ & Hmax).
  exists area. split; [done|].
  destruct (decide (w = 0)) as [->|Hw]; [lia|].
  destruct (decide (h = 0)) as [->|Hh]; [lia|].
  apply (Hmax i j w 0 h). apply ones_rectangle_hanging; [lia..| |done].
  pose proof (Hones i (j + w - 1) ltac:(lia) ltac:(lia)) as Hcell.
  unfold cell in Hcell.
  destruct (matrix !! i) as [row|] eqn:Hrow; [|done].
  destruct (row !! (j + w - 1)) eqn:Hc; [|done].
  apply lookup_lt_Some in Hc.
  rewrite Forall_lookup in Hrows. specialize (Hrows _ _ Hrow).
  simpl in Hrows. lia.
Qed.

Lemma max_rectangle_area_covers_witness :
  Forall (λ row, length row = columns land) land ∧
  ones_rectangle land 2 1 3 3 ∧
  ∃ area, max_rectangle_area land = Done area ∧ 3 * 3 ≤ area.
Proof.
  assert (Forall (λ row, length row = columns land) land) as Hland
    by (apply (bool_decide_unpack _); vm_compute; exact I).
  assert (ones_rectangle land 2 1 3 3) as Hones.
  { intros x y Hx Hy.
    assert (x = 2 ∨ x = 3 ∨ x = 4) as [->|[->| ->]] by lia;
      assert (y = 1 ∨ y = 2 ∨ y = 3) as [->|[->| ->]] by lia; reflexivity. }
  split; [exact Hland|]. split; [exact Hones|].
  apply (max_rectangle_area_covers land 2 1 3 3); [exact Hland|exact Hones].
Defined.

(** X17. [max_rectangle_area] can return more than the area of any
    rectangle of ['1'] in the matrix: there is a matrix of ['0'] and
    ['1'] with full rows on which every such rectangle is smaller than
    what is returned. *)
Theorem max_rectangle_area_exceeds :
  ∃ matrix area,
    binary matrix ∧ max_rectangle_area matrix = Done area ∧
    ∀ i j w h, ones_rectangle matrix i j w h → w * h < area.
Proof.
  exists (list_ascii_of_string <$> ["11"; "10"]%string), 4.
  split; [apply (bool_decide_unpack _); vm_compute; exact I|].
  split; [reflexivity|].
  intros i j w h Hones.
  destruct (decide (w * h < 4)) as [|Hlarge]; [done|]. exfalso.
  assert (0 < w ∧ 0 < h) as [Hw Hh] by nia.
  assert (i + h ≤ 2) as Hi.
  { destruct (decide (i + h ≤ 2)) as [|Hout]; [done|]. exfalso.
    pose proof (Hones (i + h - 1) j ltac:(lia) ltac:(lia)) as Hcell.
    destruct (i + h - 1) as [|[|x]] eqn:Hx; [lia|lia|]. done. }
  assert (j + w ≤ 2) as Hj.
  { destruct (decide (j + w ≤ 2)) as [|Hout]; [done|]. exfalso.
    pose proof (Hones i (j + w - 1) ltac:(lia) ltac:(lia)) as Hcell.
    destruct (j + w - 1) as [|[|y]] eqn:Hy; [lia|lia|].
    destruct i as [|[|i]]; done. }
  assert (i = 0 ∧ j = 0 ∧ w = 2 ∧ h = 2) as (-> & -> & -> & ->) by nia.
  pose proof (Hones 1 1 ltac:(lia) ltac:(lia)) as Hcell. done.
Qed.
